(** * debdl: the dependency-resolution core of [main.py]

    A shallow embedding of the pure part of [main.py]: the line loop of
    [parse_packages_file], [parse_dependencies], [resolve_dependencies] and
    [compute_install_order], followed by the properties of the design
    document that concern them.

    Conventions.
    - A Python [str] is a sequence of Unicode code points: [list N].
    - A [dict] is a [gmap], a [set] is a [gset].
    - Mutable arguments ([resolved], [seen], the closure variables [order]
      and [visited] of [dfs]) are threaded explicitly through a state record;
      [print] appends a line to the [out] component.
    - The recursive functions take a [fuel] argument for the nesting depth,
      and the fuel the top-level entry points supply is proved sufficient:
      these give what a call returns when it returns. Whether a call
      returns under the interpreter's recursion limit is the matter of
      [resolve_limited], which counts the frames. *)

From Stdlib Require Import NArith String Ascii.
From stdpp Require Import gmap list sets relations.

#[local] Set Warnings "-clear-no-such-hyp".

(** ** Strings *)

Module Str.
Local Open Scope N_scope.

Abbreviation char := N.
Abbreviation str := (list N).

(** Literals: the code points of an ASCII literal. *)
Definition lit (s : string) : str :=
  map N_of_ascii (list_ascii_of_string s).

Definition TAB : char := 9.
Definition SPACE : char := 32.
Definition COMMA : char := 44.
Definition COLON : char := 58.
Definition PIPE : char := 124.

(** [str.isspace] for one code point, as [str.strip()] uses it. *)
Definition is_space (c : char) : bool :=
  ((9 <=? c) && (c <=? 13)) || ((28 <=? c) && (c <=? 32))
  || (c =? 133) || (c =? 160) || (c =? 5760)
  || ((8192 <=? c) && (c <=? 8202))
  || (c =? 8232) || (c =? 8233) || (c =? 8239) || (c =? 8287)
  || (c =? 12288).

Fixpoint lstrip (s : str) : str :=
  match s with
  | c :: s' => if is_space c then lstrip s' else s
  | [] => []
  end.

Definition rstrip (s : str) : str := reverse (lstrip (reverse s)).

(** [s.strip()] *)
Definition strip (s : str) : str := rstrip (lstrip s).

(** [s.split(sep)] for a one-character separator. *)
Fixpoint split (sep : char) (s : str) : list str :=
  match s with
  | [] => [[]]
  | c :: s' =>
      if c =? sep then [] :: split sep s'
      else match split sep s' with
           | w :: ws => (c :: w) :: ws
           | [] => [[c]]
           end
  end.

(** [s.split(sep)[0]] *)
Definition first_field (sep : char) (s : str) : str :=
  match split sep s with
  | w :: _ => w
  | [] => []
  end.

(** [sep in s] *)
Definition contains (sep : char) (s : str) : bool :=
  existsb (N.eqb sep) s.

(** [s.split(sep, 1)] when [sep in s]: the text before and after the first
    separator. *)
Fixpoint split_once (sep : char) (s : str) : str * str :=
  match s with
  | [] => ([], [])
  | c :: s' =>
      if c =? sep then ([], s')
      else let '(k, v) := split_once sep s' in (c :: k, v)
  end.

(** [s.startswith(" ")] *)
Definition startswith_space (s : str) : bool :=
  match s with
  | c :: _ => c =? SPACE
  | [] => false
  end.

End Str.

Import Str.

(** ** Data model *)

(** A record of the index ([pkg_info]) maps field names to values:
    [gmap str str]. The index ([packages]) maps package names to records:
    [gmap str (gmap str str)]. *)

Definition DEPENDS : str := lit "Depends".

(** ** parse_dependencies *)

(** The body of the [for dep in dep_str.split(",")] loop: the names it
    appends to [deps] for one comma-separated group. *)
Definition parse_group (dep : str) : list str :=
  let dep := strip dep in
  match dep with
  | [] => []
  | _ =>
      let first_alt := strip (first_field PIPE dep) in
      let pkg := first_field SPACE first_alt in
      [pkg]
  end.

Definition parse_dependencies (dep_str : str) : list str :=
  flat_map parse_group (split COMMA dep_str).

(** The name the parser keeps of one candidate: its text up to the first
    space, once stripped. *)
Definition candidate_name (cand : str) : str := first_field SPACE (strip cand).

(** ** The line loop of parse_packages_file *)

(** State of the loop over the lines of one entry: the record built so far
    and the variable [key] ([None] until a key line is seen). *)
Record EntryState := mkEntry {
  pkg_info : gmap str str;
  key : option str
}.

(** One iteration of [for line in lines]. The result is [None] when the
    iteration raises ([pkg_info[key] += ...] on a missing key). *)
Definition parse_line (st : EntryState) (line : str) : option EntryState :=
  if startswith_space line then
    match key st with
    | Some (c :: k) =>
        match pkg_info st !! (c :: k) with
        | Some v =>
            Some (mkEntry (<[c :: k := v ++ SPACE :: strip line]> (pkg_info st))
                          (key st))
        | None => None
        end
    | _ => Some st
    end
  else if contains COLON line then
    let '(k, value) := split_once COLON line in
    let k := strip k in
    let value := strip value in
    Some (mkEntry (<[k := value]> (pkg_info st)) (Some k))
  else Some st.

Fixpoint parse_lines (st : EntryState) (lines : list str) : option EntryState :=
  match lines with
  | [] => Some st
  | line :: rest =>
      match parse_line st line with
      | Some st' => parse_lines st' rest
      | None => None
      end
  end.

(** The loop starts with [pkg_info = {}] and [key = None]. *)
Definition entry_start : EntryState := mkEntry ∅ None.

(** [pkg_info] after the loop. *)
Definition parse_entry (lines : list str) : option (gmap str str) :=
  pkg_info <$> parse_lines entry_start lines.

(** The line begins with a whitespace character (as [str.isspace] has it). *)
Definition begins_with_whitespace (line : str) : Prop :=
  ∃ c rest, line = c :: rest ∧ is_space c = true.

(** Processing [line] in state [st] appends a space and the stripped line to
    the value stored under [k], and changes nothing else. *)
Definition appends_to (k : str) (st : EntryState) (line : str) : Prop :=
  ∃ v, pkg_info st !! k = Some v
       ∧ parse_line st line
         = Some (mkEntry (<[k := v ++ SPACE :: strip line]> (pkg_info st))
                         (Some k)).

(** The variable [key], once set, names a field of [pkg_info]. *)
Definition key_bound (st : EntryState) : Prop :=
  ∀ k, key st = Some k → is_Some (pkg_info st !! k).

(** ** Loops over a list with threaded state *)

Section ForEach.
Context {St A : Type}.

(** [for x in l: body(x)], where an iteration may fail. *)
Fixpoint for_each (body : A → St → option St) (l : list A) (st : St)
    : option St :=
  match l with
  | [] => Some st
  | x :: l' =>
      match body x st with
      | Some st' => for_each body l' st'
      | None => None
      end
  end.
End ForEach.

(** ** resolve_dependencies *)

Record RState := mkR {
  resolved : gset str;
  seen : gset str;
  out : list str
}.

Definition warning (package_name : str) : str :=
  lit "Warning: " ++ package_name ++ lit " not found in package list".

Definition add_seen (x : str) (st : RState) : RState :=
  mkR (resolved st) ({[x]} ∪ seen st) (out st).
Definition add_resolved (x : str) (st : RState) : RState :=
  mkR ({[x]} ∪ resolved st) (seen st) (out st).
Definition print (line : str) (st : RState) : RState :=
  mkR (resolved st) (seen st) (out st ++ [line]).

(** The body of [resolve_dependencies] once [resolved] and [seen] are sets.
    [fuel] bounds the depth of nested calls; [None] means it ran out. *)
Fixpoint resolve_rec (fuel : nat) (packages : gmap str (gmap str str))
    (package_name : str) (st : RState) : option RState :=
  match fuel with
  | O => None
  | S fuel' =>
      if decide (package_name ∈ resolved st) then Some st
      else if decide (package_name ∈ seen st) then Some st
      else
        let st := add_seen package_name st in
        match packages !! package_name with
        | None => Some (print (warning package_name) st)
        | Some info =>
            match
              match info !! DEPENDS with
              | Some dep_str =>
                  for_each (resolve_rec fuel' packages)
                           (parse_dependencies dep_str) st
              | None => Some st
              end
            with
            | Some st' => Some (add_resolved package_name st')
            | None => None
            end
        end
  end.

(** The depth of nested calls never exceeds this. *)
Definition resolve_fuel (packages : gmap str (gmap str str)) : nat :=
  S (size packages).

(** [resolve_dependencies(package_name, packages, resolved, seen)]: the
    optional arguments default to [None], which is replaced by a new empty
    set. Returns the set [resolved] and the text printed so far. *)
Definition resolve_dependencies (package_name : str)
    (packages : gmap str (gmap str str))
    (resolved0 seen0 : option (gset str)) (stdout : list str)
    : option (gset str * list str) :=
  let resolved1 := default ∅ resolved0 in
  let seen1 := default ∅ seen0 in
  st ← resolve_rec (resolve_fuel packages) packages package_name
         (mkR resolved1 seen1 stdout);
  Some (resolved st, out st).

(** ** compute_install_order *)

Record OState := mkO {
  order : list str;
  visited : gset str
}.

(** The nested function [dfs]; [resolved] and [packages] are its free
    variables. *)
Fixpoint dfs (fuel : nat) (resolved : gset str)
    (packages : gmap str (gmap str str)) (pkg : str) (st : OState)
    : option OState :=
  match fuel with
  | O => None
  | S fuel' =>
      if decide (pkg ∈ visited st) then Some st
      else
        let st := mkO (order st) ({[pkg]} ∪ visited st) in
        match
          match packages !! pkg with
          | Some info =>
              match info !! DEPENDS with
              | Some dep_str =>
                  for_each
                    (λ dep st,
                       if decide (dep ∈ resolved)
                       then dfs fuel' resolved packages dep st
                       else Some st)
                    (parse_dependencies dep_str) st
              | None => Some st
              end
          | None => Some st
          end
        with
        | Some st' => Some (mkO (order st' ++ [pkg]) (visited st'))
        | None => None
        end
  end.

Definition dfs_fuel (resolved : gset str) : nat := S (size resolved).

(** [compute_install_order(resolved, packages)]. A Python set yields its
    members in an order the language leaves open; [iter] is the order in
    which [for pkg in resolved] yields them. *)
Definition compute_install_order (iter : list str) (resolved : gset str)
    (packages : gmap str (gmap str str)) : option (list str) :=
  st ← for_each
         (λ pkg st,
            if decide (pkg ∉ visited st)
            then dfs (dfs_fuel resolved) resolved packages pkg st
            else Some st)
         iter (mkO [] ∅);
  Some (order st).

(** Is [iter] an order in which the set [X] can be iterated? *)
Definition iteration_of (X : gset str) (iter : list str) : Prop :=
  NoDup iter ∧ ∀ x, x ∈ iter ↔ x ∈ X.

(** ** First-alternative dependencies and the traversals as relations *)

(** The list both traversals loop over for a package: the parsed [Depends]
    field of its record, empty when the package or the field is missing. *)
Definition first_alt_deps (packages : gmap str (gmap str str)) (p : str)
    : list str :=
  match packages !! p with
  | Some info =>
      match info !! DEPENDS with
      | Some dep_str => parse_dependencies dep_str
      | None => []
      end
  | None => []
  end.

(** [run packages names st st']: calling [resolve_dependencies] on each of
    [names] in turn, with the shared sets of [st], ends in [st']. One
    constructor per path through the function body. *)
Inductive run (packages : gmap str (gmap str str))
    : list str → RState → RState → Prop :=
  | run_nil st :
      run packages [] st st
  | run_resolved name rest st st' :
      name ∈ resolved st →
      run packages rest st st' →
      run packages (name :: rest) st st'
  | run_seen name rest st st' :
      name ∉ resolved st → name ∈ seen st →
      run packages rest st st' →
      run packages (name :: rest) st st'
  | run_missing name rest st st' :
      name ∉ resolved st → name ∉ seen st →
      packages !! name = None →
      run packages rest (print (warning name) (add_seen name st)) st' →
      run packages (name :: rest) st st'
  | run_deps name rest st st1 st' :
      name ∉ resolved st → name ∉ seen st →
      is_Some (packages !! name) →
      run packages (first_alt_deps packages name) (add_seen name st) st1 →
      run packages rest (add_resolved name st1) st' →
      run packages (name :: rest) st st'.

(** Names of the index not yet in [seen]: what bounds the nesting depth of
    [resolve_dependencies]. *)
Definition unseen (packages : gmap str (gmap str str)) (st : RState)
    : gset str :=
  dom packages ∖ seen st.

(** [d] is a first-alternative dependency of [p]. *)
Definition dep_edge (packages : gmap str (gmap str str)) (p d : str) : Prop :=
  d ∈ first_alt_deps packages p.

(** A first-alternative edge whose target exists in the index. *)
Definition index_edge (packages : gmap str (gmap str str)) (p d : str)
    : Prop :=
  d ∈ first_alt_deps packages p ∧ d ∈ dom packages.

(** The closure invariant of the resolver, relative to the names [A] whose
    calls are still active: every name of the index that was seen is resolved
    or active, and so is every dependency, present in the index, of a
    resolved name. *)
Definition closed_upto (packages : gmap str (gmap str str)) (A : gset str)
    (st : RState) : Prop :=
  (∀ x, x ∈ seen st → x ∈ dom packages → x ∈ resolved st ∨ x ∈ A)
  ∧ (∀ p d, p ∈ resolved st → dep_edge packages p d → d ∈ dom packages →
            d ∈ resolved st ∨ d ∈ A).

(** The two states hold the same sets (their output may differ). *)
Definition same_sets (s t : RState) : Prop :=
  resolved s = resolved t ∧ seen s = seen t.

(** The body of the loop over the dependencies in [dfs]:
    [if dep in resolved: dfs(dep)]. *)
Definition visit (fuel : nat) (resolved : gset str)
    (packages : gmap str (gmap str str)) (dep : str) (st : OState)
    : option OState :=
  if decide (dep ∈ resolved) then dfs fuel resolved packages dep st
  else Some st.

(** [walk resolved packages names st st']: running [visit] on each of
    [names] in turn ends in [st']. One constructor per path through [dfs]
    and its guard. *)
Inductive walk (resolved : gset str) (packages : gmap str (gmap str str))
    : list str → OState → OState → Prop :=
  | walk_nil st :
      walk resolved packages [] st st
  | walk_skip dep rest st st' :
      dep ∉ resolved →
      walk resolved packages rest st st' →
      walk resolved packages (dep :: rest) st st'
  | walk_visited pkg rest st st' :
      pkg ∈ resolved → pkg ∈ visited st →
      walk resolved packages rest st st' →
      walk resolved packages (pkg :: rest) st st'
  | walk_enter pkg rest st st1 st' :
      pkg ∈ resolved → pkg ∉ visited st →
      walk resolved packages (first_alt_deps packages pkg)
           (mkO (order st) ({[pkg]} ∪ visited st)) st1 →
      walk resolved packages rest (mkO (order st1 ++ [pkg]) (visited st1)) st' →
      walk resolved packages (pkg :: rest) st st'.

(** A first-alternative edge between members of the closure. *)
Definition closure_edge (closure : gset str)
    (packages : gmap str (gmap str str)) (p d : str) : Prop :=
  d ∈ first_alt_deps packages p ∧ d ∈ closure.

(** [d] stands at a strictly earlier position than [p] in [l]. *)
Definition before (d p : str) (l : list str) : Prop :=
  ∃ i j, l !! i = Some d ∧ l !! j = Some p ∧ i < j.

(** Order validity as the design document states it: every dependency that
    is in the closure stands strictly before its dependent. *)
Definition order_valid (closure : gset str)
    (packages : gmap str (gmap str str)) (ord : list str) : Prop :=
  ∀ p d, p ∈ closure → d ∈ closure → d ∈ first_alt_deps packages p →
         before d p ord.

(** What a walk appends: the list [new] of the names it visits for the first
    time, each after those of its dependencies that were not active. *)
Definition walk_post (closure : gset str) (packages : gmap str (gmap str str))
    (l : list str) (st st' : OState) (new : list str) : Prop :=
  order st' = order st ++ new
  ∧ visited st' = visited st ∪ list_to_set new
  ∧ NoDup new
  ∧ (∀ x, x ∈ new → (x ∉ visited st) ∧ x ∈ closure)
  ∧ (∀ x, x ∈ new →
          ∃ y, y ∈ l ∧ y ∈ closure ∧ rtc (closure_edge closure packages) y x)
  ∧ (∀ y, y ∈ l → y ∈ closure → y ∈ visited st')
  ∧ (∀ x d, x ∈ new → closure_edge closure packages x d →
            before d x (order st')
            ∨ (d ∈ visited st ∧ d ∉ order st)
            ∨ rtc (closure_edge closure packages) d x).

(** ** Scenarios of the design document *)

Definition scenario_A : gmap str (gmap str str) :=
  <[lit "A" := {[DEPENDS := lit "B, C|D"]}]>
  (<[lit "B" := {[DEPENDS := lit "C"]}]>
  (<[lit "C" := ∅]> (<[lit "D" := ∅]> ∅))).

Definition scenario_B : gmap str (gmap str str) :=
  <[lit "A" := {[DEPENDS := lit "B"]}]>
  (<[lit "B" := {[DEPENDS := lit "A"]}]> ∅).

Definition scenario_C : gmap str (gmap str str) :=
  {[lit "A" := {[DEPENDS := lit "Z"]}]}.

(** The closures of scenarios A and B. *)
Definition closure_A : gset str := list_to_set [lit "A"; lit "B"; lit "C"].
Definition closure_B : gset str := list_to_set [lit "A"; lit "B"].

(** Two invocations on the missing name [Z] within one resolution. *)
Definition twice_missing : gmap str (gmap str str) :=
  {[lit "A" := {[DEPENDS := lit "Z, Z"]}]}.

(** [C] is missing, its alternative [D] is present. *)
Definition alternative_present : gmap str (gmap str str) :=
  <[lit "A" := {[DEPENDS := lit "C|D"]}]> (<[lit "D" := ∅]> ∅).

(** A record after the line [Description: short]. *)
Definition description_state : EntryState :=
  mkEntry {[lit "Description" := lit "short"]} (Some (lit "Description")).

(** ** parse_packages_file, from the text read to the index *)

Definition PACKAGE : str := lit "Package".

Definition LF : char := 10%N.
Definition CR : char := 13%N.

(** The line boundaries of [str.splitlines]. *)
Definition is_linebreak (c : char) : bool :=
  (((10 <=? c) && (c <=? 13)) || ((28 <=? c) && (c <=? 30))
   || (c =? 133) || (c =? 8232) || (c =? 8233))%N.

(** [s.splitlines()]: the lines without their terminators; a carriage return
    followed by a line feed is one terminator; no empty last line. *)
Fixpoint splitlines (s : str) : list str :=
  match s with
  | [] => []
  | c :: s' =>
      if is_linebreak c then
        [] :: match s' with
              | c' :: s'' =>
                  if ((c =? CR) && (c' =? LF))%N then splitlines s''
                  else splitlines s'
              | [] => splitlines s'
              end
      else match splitlines s' with
           | l :: ls => (c :: l) :: ls
           | [] => [[c]]
           end
  end.

(** [content.split("\n\n")]: cut at each pair of line feeds, found from the
    left without overlap. *)
Fixpoint split_blank_line (s : str) : list str :=
  match s with
  | [] => [[]]
  | c :: s' =>
      match s' with
      | c' :: s'' =>
          if ((c =? LF) && (c' =? LF))%N then [] :: split_blank_line s''
          else match split_blank_line s' with
               | w :: ws => (c :: w) :: ws
               | [] => [[c]]
               end
      | [] => [[c]]
      end
  end.

(** The body of [for entry in entries]; [None] when the line loop raises. *)
Definition add_entry (entry : str) (packages : gmap str (gmap str str))
    : option (gmap str (gmap str str)) :=
  match strip entry with
  | [] => Some packages
  | _ =>
      match parse_entry (splitlines entry) with
      | Some pkg_info =>
          match pkg_info !! PACKAGE with
          | Some name => Some (<[name := pkg_info]> packages)
          | None => Some packages
          end
      | None => None
      end
  end.

(** [parse_packages_file()], from [content], the text read from the cached
    file, on. *)
Definition parse_packages_file (content : str)
    : option (gmap str (gmap str str)) :=
  for_each add_entry (split_blank_line content) ∅.

(** A small index text: two records, the second with a continuation line. *)
Definition sample_content : str :=
  lit "Package: a" ++ [LF] ++ lit "Depends: b (>= 1:2.0), c | d" ++ [LF; LF]
  ++ lit "Package: b" ++ [LF] ++ lit "Description: short" ++ [LF]
  ++ lit " long text" ++ [LF].

(** [c] put in front of the first field of a split. *)
Definition cons_first (c : char) (fields : list str) : list str :=
  match fields with
  | w :: ws => (c :: w) :: ws
  | [] => [[c]]
  end.

(** What the line loop keeps true of its state: the variable [key], once
    set, names a field of [pkg_info], and every field name is stripped and
    holds no colon. *)
Definition entry_ok (st : EntryState) : Prop :=
  key_bound st
  ∧ ∀ field, is_Some (pkg_info st !! field) →
             strip field = field ∧ COLON ∉ field.

(** Every record of the index is stored under the value of its [Package]
    field and was read from one of the entries. *)
Definition index_ok (entries : list str) (packages : gmap str (gmap str str))
    : Prop :=
  ∀ name info, packages !! name = Some info →
    info !! PACKAGE = Some name
    ∧ ∃ entry, entry ∈ entries ∧ parse_entry (splitlines entry) = Some info.

(** The index of [sample_content]. *)
Definition sample_b : gmap str str :=
  <[PACKAGE := lit "b"]> {[lit "Description" := lit "short long text"]}.
Definition sample_index : gmap str (gmap str str) :=
  <[lit "a" := <[PACKAGE := lit "a"]> {[DEPENDS := lit "b (>= 1:2.0), c | d"]}]>
  {[lit "b" := sample_b]}.

(** Two records for the same name. *)
Definition first_record : str := lit "Package: a".
Definition second_record : str :=
  lit "Package: a" ++ LF :: lit "Depends: b".
Definition first_index : gmap str (gmap str str) :=
  {[lit "a" := {[PACKAGE := lit "a"]}]}.
Definition second_index : gmap str (gmap str str) :=
  {[lit "a" := <[PACKAGE := lit "a"]> {[DEPENDS := lit "b"]}]}.

(** Scenario A without the record of [D], which is outside the closure. *)
Definition scenario_A_without_D : gmap str (gmap str str) :=
  delete (lit "D") scenario_A.

(** A rank that falls along the edges of scenario A. *)
Definition rank_A (x : str) : nat :=
  if decide (x = lit "A") then 2
  else if decide (x = lit "B") then 1
  else 0.

(** ** generate_install_script *)

Definition SLASH : char := 47%N.
Definition FILENAME : str := lit "Filename".

(** [os.path.basename(p)] of [posixpath]: the text after the last slash. *)
Definition basename (p : str) : str := default [] (last (split SLASH p)).

(** [os.path.join(a, b)] of [posixpath]. *)
Definition path_join (a b : str) : str :=
  if match head b with Some c => (c =? SLASH)%N | None => false end
  then b
  else match last a with
       | None => a ++ b
       | Some z => if (z =? SLASH)%N then a ++ b else a ++ SLASH :: b
       end.

(** ["\n".join(lines)] *)
Fixpoint join_lines (lines : list str) : str :=
  match lines with
  | [] => []
  | [l] => l
  | l :: rest => l ++ LF :: join_lines rest
  end.

Definition script_header : list str :=
  [lit "#!/bin/bash"; lit "set -e"; lit "";
   lit "echo 'Starting installation of downloaded .deb packages...'"; lit ""].

Definition script_footer : list str :=
  [lit "echo 'Fixing dependencies, if any...'";
   lit "sudo apt-get install -f -y";
   lit "echo 'Installation complete.'"].

Definition echo_line (pkg : str) : str :=
  lit "echo 'Installing " ++ pkg ++ lit "...'".

Definition install_line (path : str) : str :=
  lit "sudo apt install ./" ++ path ++ lit " || true".

(** One iteration of [for pkg in install_order]: [lines] after it. *)
Definition script_step (packages : gmap str (gmap str str)) (output_dir : str)
    (lines : list str) (pkg : str) : list str :=
  match packages !! pkg with
  | Some info =>
      match info !! FILENAME with
      | Some filename =>
          let deb_file := basename filename in
          let deb_path := path_join output_dir deb_file in
          lines ++ [echo_line pkg; install_line deb_path; lit ""]
      | None => lines
      end
  | None => lines
  end.

(** The list [lines] when it is joined. *)
Definition script_lines (install_order : list str)
    (packages : gmap str (gmap str str)) (output_dir : str) : list str :=
  fold_left (script_step packages output_dir) install_order script_header
  ++ script_footer.

(** [generate_install_script]: the file it writes, as the pair of
    [script_name] and the content, and the output with the line it prints.
    The file is then made executable. *)
Definition generate_install_script (install_order : list str)
    (packages : gmap str (gmap str str)) (output_dir script_name : str)
    (stdout : list str) : (str * str) * list str :=
  let script_content :=
    join_lines (script_lines install_order packages output_dir) in
  ((script_name, script_content),
   stdout ++ [lit "Installation script generated: " ++ script_name]).

(** The name has a record with a [Filename] field. *)
Definition installable (packages : gmap str (gmap str str)) (pkg : str)
    : Prop :=
  ∃ info, packages !! pkg = Some info ∧ is_Some (info !! FILENAME).

Definition installableb (packages : gmap str (gmap str str)) (pkg : str)
    : bool :=
  match packages !! pkg with
  | Some info => bool_decide (is_Some (info !! FILENAME))
  | None => false
  end.

(** The lines one name adds to the script. *)
Definition install_block (packages : gmap str (gmap str str))
    (output_dir pkg : str) : list str :=
  script_step packages output_dir [] pkg.

(** An index with archive names, for scenario A. *)
Definition archive_index : gmap str (gmap str str) :=
  <[lit "A" := {[FILENAME := lit "pool/main/a/a_1.0_amd64.deb"]}]>
  (<[lit "B" := {[FILENAME := lit "pool/main/b/b_2.0_all.deb"]}]>
  (<[lit "C" := ∅]> ∅)).

(** Scenario A with the dependencies of [A] listed in another order, one of
    them twice. *)
Definition scenario_A_reordered : gmap str (gmap str str) :=
  <[lit "A" := {[DEPENDS := lit "C, B, B"]}]> scenario_A.

(** ** resolve_dependencies under the interpreter's recursion limit *)

(** What a call does when the interpreter bounds the depth of its stack: it
    returns, or [RecursionError] is raised, which nothing in [main.py]
    catches. *)
Inductive outcome (A : Type) : Type :=
  | Returned (a : A)
  | RecursionError.
Arguments Returned {A} a.
Arguments RecursionError {A}.

Section ForEachLimited.
Context {St A : Type}.

(** [for x in l: body(x)], where an iteration may raise. *)
Fixpoint for_each_limited (body : A → St → outcome St) (l : list A) (st : St)
    : outcome St :=
  match l with
  | [] => Returned st
  | x :: l' =>
      match body x st with
      | Returned st' => for_each_limited body l' st'
      | RecursionError => RecursionError
      end
  end.
End ForEachLimited.

(** [resolve_dependencies] with [depth_left] frames left on the interpreter's
    stack (the recursion limit, 1000 unless raised, which [main.py] never
    does, less the frames already in use). A call of a function of the
    program, [resolve_dependencies] or [parse_dependencies], takes a frame
    and raises [RecursionError] when none is left; calls of built-in
    functions and methods are taken not to need one. *)
Fixpoint resolve_limited (depth_left : nat)
    (packages : gmap str (gmap str str)) (package_name : str) (st : RState)
    : outcome RState :=
  match depth_left with
  | O => RecursionError
  | S depth_left' =>
      if decide (package_name ∈ resolved st) then Returned st
      else if decide (package_name ∈ seen st) then Returned st
      else
        let st := add_seen package_name st in
        match packages !! package_name with
        | None => Returned (print (warning package_name) st)
        | Some info =>
            match info !! DEPENDS with
            | Some dep_str =>
                match depth_left' with
                | O => RecursionError
                | S _ =>
                    match
                      for_each_limited (resolve_limited depth_left' packages)
                        (parse_dependencies dep_str) st
                    with
                    | Returned st' => Returned (add_resolved package_name st')
                    | RecursionError => RecursionError
                    end
                end
            | None => Returned (add_resolved package_name st)
            end
        end
  end.

(** The call [resolve_dependencies(package_name, packages, resolved, seen)]
    made with [depth_left] frames left. *)
Definition resolve_dependencies_limited (depth_left : nat) (package_name : str)
    (packages : gmap str (gmap str str))
    (resolved0 seen0 : option (gset str)) (stdout : list str)
    : outcome (gset str * list str) :=
  match
    resolve_limited depth_left packages package_name
      (mkR (default ∅ resolved0) (default ∅ seen0) stdout)
  with
  | Returned st => Returned (resolved st, out st)
  | RecursionError => RecursionError
  end.

(** An index without cycle, as long as one likes: [n] packages named [p],
    [pp], [ppp], ..., each depending on the next. *)
Definition chain_name (i : nat) : str := replicate (S i) 112%N.

Fixpoint chain_index (n : nat) : gmap str (gmap str str) :=
  match n with
  | O => ∅
  | S k => <[chain_name k := {[DEPENDS := chain_name (S k)]}]> (chain_index k)
  end.

(** * Properties *)

(** ** The scenarios, run *)

Example parse_dependencies_docstring :
  parse_dependencies (lit "libc6 (>= 2.29), libgcc1 (>= 1:3.0) | libgcc-s1")
  = [lit "libc6"; lit "libgcc1"].
Proof. vm_compute. reflexivity. Qed.

Example scenario_A_resolve :
  fst <$> resolve_dependencies (lit "A") scenario_A None None []
  = Some (list_to_set [lit "A"; lit "B"; lit "C"]).
Proof. vm_compute. reflexivity. Qed.

Example scenario_A_order :
  compute_install_order [lit "A"; lit "B"; lit "C"]
    (list_to_set [lit "A"; lit "B"; lit "C"]) scenario_A
  = Some [lit "C"; lit "B"; lit "A"].
Proof. vm_compute. reflexivity. Qed.

(** ** Strings *)

Section StringFacts.
Implicit Types (s t : str) (c sep : char).
Local Open Scope N_scope.

Lemma split_nonempty sep s : split sep s ≠ [].
Proof. destruct s as [|c s]; simpl; [done|]. repeat case_match; done. Qed.

(** Splitting distributes over a separator in the middle. *)
Lemma split_app sep s t :
  split sep (s ++ sep :: t) = split sep s ++ split sep t.
Proof.
  induction s as [|c s IH]; simpl.
  - by rewrite N.eqb_refl.
  - destruct (c =? sep); [by rewrite IH|].
    rewrite IH. destruct (split sep s) as [|w ws] eqn:E; [|done].
    by destruct (split_nonempty sep s).
Qed.

Lemma split_no_sep sep s : sep ∉ s → split sep s = [s].
Proof.
  induction s as [|c s IH]; intros Hs; simpl; [done|].
  destruct (N.eqb_spec c sep) as [->|_]; [set_solver|].
  rewrite IH; [done | set_solver].
Qed.

Lemma first_field_app sep s t : sep ∉ s → first_field sep (s ++ sep :: t) = s.
Proof.
  intros Hs. unfold first_field. rewrite split_app, split_no_sep by done. done.
Qed.

Lemma lstrip_app_nonspace s c t :
  is_space c = false → lstrip (s ++ c :: t) = lstrip s ++ c :: t.
Proof.
  intros Hc. induction s as [|a s IH]; simpl; [by rewrite Hc|].
  by destruct (is_space a).
Qed.

Lemma rstrip_app_nonspace s c t :
  is_space c = false → rstrip (s ++ c :: t) = s ++ c :: rstrip t.
Proof.
  intros Hc. unfold rstrip.
  rewrite reverse_app, reverse_cons, <- app_assoc. simpl.
  rewrite lstrip_app_nonspace by done.
  by rewrite reverse_app, reverse_cons, !reverse_involutive, <- app_assoc.
Qed.

Lemma lstrip_suffix s : ∃ ws, s = ws ++ lstrip s.
Proof.
  induction s as [|a s [ws IH]]; simpl; [by exists []|].
  destruct (is_space a); [|by exists []].
  exists (a :: ws). simpl. by f_equal.
Qed.

Lemma lstrip_not_elem c s : c ∉ s → c ∉ lstrip s.
Proof.
  destruct (lstrip_suffix s) as [ws Hws]. intros Hc Hin.
  apply Hc. rewrite Hws. set_solver.
Qed.

Lemma lstrip_idemp s : lstrip (lstrip s) = lstrip s.
Proof.
  induction s as [|a s IH]; simpl; [done|].
  destruct (is_space a) eqn:E; [done|]. simpl. by rewrite E.
Qed.

Lemma strip_lstrip s : strip (lstrip s) = strip s.
Proof. unfold strip. by rewrite lstrip_idemp. Qed.

(** Stripping a text with a non-space character in the middle strips its
    two sides. *)
Lemma strip_app_nonspace s c t :
  is_space c = false → strip (s ++ c :: t) = lstrip s ++ c :: rstrip t.
Proof.
  intros Hc. unfold strip.
  by rewrite lstrip_app_nonspace, rstrip_app_nonspace.
Qed.
End StringFacts.

(** ** parse_dependencies *)

Lemma parse_dependencies_app (s t : str) :
  parse_dependencies (s ++ COMMA :: t)
  = parse_dependencies s ++ parse_dependencies t.
Proof. unfold parse_dependencies. by rewrite split_app, flat_map_app. Qed.

(** A group with alternatives yields the name of its first candidate, whatever
    follows the first bar. *)
Lemma parse_group_alternatives (c d : str) :
  PIPE ∉ c → parse_group (c ++ PIPE :: d) = [candidate_name c].
Proof.
  intros Hc. unfold parse_group, candidate_name.
  rewrite strip_app_nonspace by done.
  destruct (lstrip c ++ PIPE :: rstrip d) as [|a r] eqn:E.
  { by destruct (lstrip c). }
  rewrite <- E, first_field_app by by apply lstrip_not_elem.
  by rewrite strip_lstrip.
Qed.

Lemma parse_dependencies_alternatives (c d : str) :
  COMMA ∉ c → COMMA ∉ d → PIPE ∉ c →
  parse_dependencies (c ++ PIPE :: d) = [candidate_name c].
Proof.
  intros Hc Hd Hp. unfold parse_dependencies.
  rewrite split_no_sep.
  - simpl. rewrite parse_group_alternatives by done. done.
  - rewrite elem_of_app, elem_of_cons. intros [?|[?|?]]; done.
Qed.

(** C10. A group that is not blank but whose first alternative is blank makes
    [parse_dependencies] return the empty string as a package name: the
    inputs [" |b"] and ["a, |b"] yield [[""]] and [["a"; ""]]. *)
Theorem parse_dependencies_empty_name :
  parse_dependencies (lit " |b") = [lit ""]
  ∧ parse_dependencies (lit "a, |b") = [lit "a"; lit ""]
  ∧ lit "" ∈ parse_dependencies (lit " |b")
  ∧ lit "" ∈ parse_dependencies (lit "a, |b").
Proof.
  assert (parse_dependencies (lit " |b") = [lit ""]) as H1
    by (vm_compute; reflexivity).
  assert (parse_dependencies (lit "a, |b") = [lit "a"; lit ""]) as H2
    by (vm_compute; reflexivity).
  rewrite H1, H2. repeat split; set_solver.
Qed.

(** ** The line loop of parse_packages_file *)

Lemma parse_line_key_bound st line :
  key_bound st → ∃ st', parse_line st line = Some st' ∧ key_bound st'.
Proof.
  intros Hst. unfold parse_line.
  destruct (startswith_space line).
  - destruct (key st) as [[|c k]|] eqn:Hk; [by eauto| |by eauto].
    destruct (Hst _ Hk) as [v Hv]. rewrite Hv. eexists; split; [done|].
    intros k' Hk'. simpl in *. simplify_eq. rewrite lookup_insert_eq. by eauto.
  - destruct (contains COLON line); [|by eauto].
    destruct (split_once COLON line) as [k value].
    eexists; split; [done|].
    intros k' Hk'. simpl in *. simplify_eq. rewrite lookup_insert_eq. by eauto.
Qed.

Lemma parse_lines_key_bound lines st :
  key_bound st → ∃ st', parse_lines st lines = Some st' ∧ key_bound st'.
Proof.
  revert st. induction lines as [|line rest IH]; intros st Hst; simpl.
  - by eauto.
  - destruct (parse_line_key_bound st line Hst) as (st1 & -> & Hst1). by apply IH.
Qed.

Lemma entry_start_key_bound : key_bound entry_start.
Proof. intros k Hk. done. Qed.

(** The loop raises on no list of lines. *)
Lemma parse_entry_total lines : is_Some (parse_entry lines).
Proof.
  unfold parse_entry.
  destruct (parse_lines_key_bound lines entry_start entry_start_key_bound)
    as (st & -> & _).
  by eexists.
Qed.

(** C7, as amended. In the state [st] reached after any lines [prefix] of a
    record: a line that starts with a space character appends a space and its
    stripped text to the value of the last key seen, when that key is not the
    empty string, and is ignored when no key has been seen or the last key is
    empty; a line that does not start with a space and has no colon is
    ignored. *)
Theorem continuation_lines (prefix : list str) (st : EntryState) (line : str) :
  parse_lines entry_start prefix = Some st →
  (startswith_space line = true →
     (∀ k, key st = Some k → k ≠ [] → appends_to k st line)
     ∧ (key st = None ∨ key st = Some [] → parse_line st line = Some st))
  ∧ (startswith_space line = false → contains COLON line = false →
     parse_line st line = Some st).
Proof.
  intros Hrun.
  assert (key_bound st) as Hst.
  { destruct (parse_lines_key_bound prefix _ entry_start_key_bound)
      as (st' & Hst' & ?). by simplify_eq. }
  split.
  - intros Hsp. split.
    + intros k Hk Hne. destruct (Hst _ Hk) as [v Hv]. exists v. split; [done|].
      unfold parse_line. rewrite Hsp, Hk.
      destruct k as [|c k]; [done|]. by rewrite Hv.
    + intros Hk. unfold parse_line. rewrite Hsp. by destruct Hk as [-> | ->].
  - intros Hsp Hcol. unfold parse_line. by rewrite Hsp, Hcol.
Qed.

Lemma continuation_lines_witness :
  parse_lines entry_start [lit "Description: short"] = Some description_state
  ∧ startswith_space (lit "  long text ") = true
  ∧ parse_line description_state (lit "  long text ")
    = Some (mkEntry {[lit "Description" := lit "short long text"]}
                    (Some (lit "Description")))
  ∧ parse_line description_state (lit "stray") = Some description_state.
Proof.
  assert (parse_lines entry_start [lit "Description: short"]
          = Some description_state) as Hst
    by (vm_compute; reflexivity).
  destruct (continuation_lines _ _ (lit "  long text ") Hst) as [Ha _].
  destruct (continuation_lines _ _ (lit "stray") Hst) as [_ Hb].
  split; [exact Hst|]. split; [reflexivity|]. split.
  - destruct (Ha eq_refl) as [Happ _].
    destruct (Happ (lit "Description") eq_refl) as (v & Hv & ->).
    + intros Heq; discriminate Heq.
    + vm_compute in Hv. injection Hv as <-. vm_compute. reflexivity.
  - apply Hb; reflexivity.
Defined.

(** C7 as the design document words it fails on the code in two ways. A line
    that begins with a tab begins with whitespace, yet is not a continuation
    line: after [Description: x] the line [<TAB>more] changes
    nothing. And after the line [:x], whose key is the empty string, the space
    led line [ more] is dropped although a key precedes it. *)
Lemma continuation_lines_counterexample :
  (∃ st, parse_lines entry_start [lit "Description: x"] = Some st
         ∧ key st = Some (lit "Description")
         ∧ begins_with_whitespace (TAB :: lit "more")
         ∧ ¬ appends_to (lit "Description") st (TAB :: lit "more"))
  ∧ (∃ st, parse_lines entry_start [lit ":x"] = Some st
           ∧ key st = Some (lit "")
           ∧ begins_with_whitespace (lit " more")
           ∧ ¬ appends_to (lit "") st (lit " more")).
Proof.
  split.
  - exists (mkEntry {[lit "Description" := lit "x"]} (Some (lit "Description"))).
    split; [vm_compute; reflexivity|]. split; [reflexivity|]. split.
    + exists TAB, (lit "more"). split; reflexivity.
    + intros (v & Hv & Hrun). vm_compute in Hv. injection Hv as <-.
      vm_compute in Hrun. discriminate Hrun.
  - exists (mkEntry {[lit "" := lit "x"]} (Some (lit ""))).
    split; [vm_compute; reflexivity|]. split; [reflexivity|]. split.
    + exists SPACE, (lit "more"). split; reflexivity.
    + intros (v & Hv & Hrun). vm_compute in Hv. injection Hv as <-.
      vm_compute in Hrun. discriminate Hrun.
Qed.

(** ** Loops *)

Section ForEachFacts.
Context {St A : Type}.
Implicit Types (body : A → St → option St) (l : list A) (st : St).

Lemma for_each_app body l1 l2 st :
  for_each body (l1 ++ l2) st
  = match for_each body l1 st with
    | Some st' => for_each body l2 st'
    | None => None
    end.
Proof.
  revert st. induction l1 as [|x l1 IH]; intros st; simpl; [done|].
  destruct (body x st); [apply IH | done].
Qed.

(** A loop succeeds when each iteration does, under an invariant. *)
Lemma for_each_total body (I : St → Prop) l st :
  I st →
  (∀ x s, x ∈ l → I s → ∃ s', body x s = Some s' ∧ I s') →
  ∃ st', for_each body l st = Some st' ∧ I st'.
Proof.
  revert st. induction l as [|x l IH]; intros st Hst Hbody; simpl.
  - by eauto.
  - destruct (Hbody x st) as (s' & -> & Hs'); [set_solver | done |].
    apply IH; [done|]. intros y s Hy. apply Hbody. set_solver.
Qed.

(** A loop whose body is replaced by one that agrees with it where it
    succeeds gives the same result. *)
Lemma for_each_mono body body' l st st' :
  (∀ x s s', body x s = Some s' → body' x s = Some s') →
  for_each body l st = Some st' → for_each body' l st = Some st'.
Proof.
  intros Hbody. revert st. induction l as [|x l IH]; intros st; simpl; [done|].
  destruct (body x st) as [s1|] eqn:E; [|done].
  rewrite (Hbody _ _ _ E). apply IH.
Qed.
End ForEachFacts.

(** ** resolve_dependencies: the function and the relation *)

Section Resolve.
Context (packages : gmap str (gmap str str)).
Implicit Types (name root : str) (st : RState) (fuel : nat).

Lemma resolve_rec_unfold fuel name st :
  resolve_rec (S fuel) packages name st
  = if decide (name ∈ resolved st) then Some st
    else if decide (name ∈ seen st) then Some st
    else match packages !! name with
         | None => Some (print (warning name) (add_seen name st))
         | Some _ =>
             add_resolved name <$>
               for_each (resolve_rec fuel packages)
                        (first_alt_deps packages name) (add_seen name st)
         end.
Proof.
  simpl. repeat case_decide; try done. unfold first_alt_deps.
  destruct (packages !! name) as [info|]; [|done].
  destruct (info !! DEPENDS); [|done].
  by destruct (for_each _ _ _).
Qed.

Lemma run_cons name rest st st1 st' :
  run packages [name] st st1 → run packages rest st1 st' →
  run packages (name :: rest) st st'.
Proof.
  intros H1 H2. inversion H1; subst.
  - match goal with H : run _ [] _ _ |- _ => inversion H; subst end.
    by apply run_resolved.
  - match goal with H : run _ [] _ _ |- _ => inversion H; subst end.
    by apply run_seen.
  - match goal with H : run _ [] _ _ |- _ => inversion H; subst end.
    by apply run_missing.
  - match goal with H : run _ [] _ _ |- _ => inversion H; subst end.
    by eapply run_deps.
Qed.

(** Whatever the function computes, the relation derives. *)
Lemma resolve_rec_run fuel :
  ∀ name st st', resolve_rec fuel packages name st = Some st' →
                 run packages [name] st st'.
Proof.
  induction fuel as [|fuel IH]; intros name st st'; [done|].
  rewrite resolve_rec_unfold.
  assert (∀ l s s', for_each (resolve_rec fuel packages) l s = Some s' →
                    run packages l s s') as Hloop.
  { induction l as [|x l IHl]; intros s s'; simpl.
    - intros [= ->]. constructor.
    - destruct (resolve_rec fuel packages x s) as [s1|] eqn:E; [|done].
      intros Hl. eapply run_cons; [by apply IH | by apply IHl]. }
  case_decide; [intros [= ->]; apply run_resolved; [done | constructor]|].
  case_decide; [intros [= ->]; apply run_seen; [done.. | constructor]|].
  destruct (packages !! name) as [info|] eqn:Hp.
  - destruct (for_each _ _ _) as [s1|] eqn:E; [|done].
    intros [= <-]. eapply run_deps; [done | done | by eauto | | constructor].
    by apply Hloop.
  - intros [= <-]. apply run_missing; [done.. | constructor].
Qed.


Lemma resolve_rec_seen_mono fuel :
  ∀ name st st', resolve_rec fuel packages name st = Some st' →
                 seen st ⊆ seen st'.
Proof.
  intros name st st' H%resolve_rec_run.
  induction H; simpl in *; set_solver.
Qed.

(** With more fuel than there are unseen names of the index, the call
    returns. *)
Lemma resolve_rec_total fuel :
  ∀ name st, size (unseen packages st) < fuel →
             ∃ st', resolve_rec fuel packages name st = Some st'.
Proof.
  induction fuel as [|fuel IH]; intros name st Hsz; [lia|].
  rewrite resolve_rec_unfold.
  case_decide; [by eauto|]. case_decide; [by eauto|].
  destruct (packages !! name) as [info|] eqn:Hp; [|by eauto].
  assert (size (unseen packages (add_seen name st)) < size (unseen packages st)) as Hlt.
  { apply subset_size. unfold unseen. simpl.
    apply strict_spec_alt. split; [set_solver|].
    assert (name ∈ dom packages) by (apply elem_of_dom; eauto).
    intros Heq. assert (name ∈ dom packages ∖ seen st) as Hin by set_solver.
    rewrite <- Heq in Hin. set_solver. }
  destruct (for_each_total (resolve_rec fuel packages)
              (λ s, size (unseen packages s) < fuel)
              (first_alt_deps packages name) (add_seen name st))
    as (s1 & -> & _); [lia | | by eauto].
  intros x s _ Hs. destruct (IH x s Hs) as [s' Hs']. exists s'. split; [done|].
  eapply Nat.le_lt_trans; [|exact Hs]. apply subseteq_size.
  apply resolve_rec_seen_mono in Hs'. unfold unseen. set_solver.
Qed.

(** *** What a run does to the two sets *)

Lemma run_mono l st st' :
  run packages l st st' →
  resolved st ⊆ resolved st' ∧ seen st ⊆ seen st'.
Proof. induction 1; simpl in *; set_solver. Qed.

Lemma run_resolved_in_index l st st' :
  run packages l st st' →
  resolved st ⊆ dom packages → resolved st' ⊆ dom packages.
Proof.
  induction 1; simpl in *; auto.
  intros Hst. apply IHrun2. simpl.
  assert (name ∈ dom packages) by by apply elem_of_dom.
  specialize (IHrun1 Hst). set_solver.
Qed.

(** Every name a run adds to [resolved] is one it was called on, or a
    first-alternative dependency of a name that is resolved at the end. *)
Lemma run_entered l st st' :
  run packages l st st' →
  ∀ x, x ∈ resolved st' →
       x ∈ resolved st ∨ x ∈ l
       ∨ ∃ p, p ∈ resolved st' ∧ dep_edge packages p x.
Proof.
  induction 1 as [st|name rest st st' Hr Hrun IH|name rest st st' Hr Hs Hrun IH
                 |name rest st st' Hr Hs Hp Hrun IH
                 |name rest st st1 st' Hr Hs Hp Hrun1 IH1 Hrun2 IH2];
    intros x Hx.
  - by left.
  - destruct (IH x Hx) as [?|[?|?]]; set_solver.
  - destruct (IH x Hx) as [?|[?|?]]; set_solver.
  - destruct (IH x Hx) as [?|[?|?]]; set_solver.
  - destruct (IH2 x Hx) as [Hx2|[?|?]]; [|set_solver|by auto].
    simpl in Hx2. apply elem_of_union in Hx2 as [Hx2|Hx2]; [set_solver|].
    destruct (IH1 x Hx2) as [?|[Hd|(p & Hp1 & Hd)]]; [by left| |].
    + right; right. exists name. split; [|done].
      apply run_mono in Hrun2 as [Hsub _]. apply Hsub. simpl. set_solver.
    + right; right. exists p. split; [|done].
      apply run_mono in Hrun2 as [Hsub _]. apply Hsub. simpl. set_solver.
Qed.

(** Every name a run adds to [resolved] is reachable from a name of the index
    it was called on, along first-alternative edges that stay in the index. *)
Lemma run_reachable l st st' :
  run packages l st st' →
  ∀ x, x ∈ resolved st' →
       x ∈ resolved st
       ∨ ∃ y, y ∈ l ∧ y ∈ dom packages ∧ rtc (index_edge packages) y x.
Proof.
  induction 1 as [st|name rest st st' Hr Hrun IH|name rest st st' Hr Hs Hrun IH
                 |name rest st st' Hr Hs Hp Hrun IH
                 |name rest st st1 st' Hr Hs Hp Hrun1 IH1 Hrun2 IH2];
    intros x Hx.
  - by left.
  - destruct (IH x Hx) as [?|(y & ? & ? & ?)]; [by left|].
    right. exists y. set_solver.
  - destruct (IH x Hx) as [?|(y & ? & ? & ?)]; [by left|].
    right. exists y. set_solver.
  - destruct (IH x Hx) as [?|(y & ? & ? & ?)]; [by left|].
    right. exists y. set_solver.
  - assert (name ∈ dom packages) as Hdom by by apply elem_of_dom.
    destruct (IH2 x Hx) as [Hx2|(y & ? & ? & ?)]; [|right; exists y; set_solver].
    simpl in Hx2. apply elem_of_union in Hx2 as [Hx2|Hx2].
    { right. exists name. split; [set_solver|]. split; [done|].
      apply elem_of_singleton in Hx2 as ->. done. }
    destruct (IH1 x Hx2) as [?|(y & Hy & Hyd & Hreach)]; [by left|].
    right. exists name. split; [set_solver|]. split; [done|].
    eapply rtc_l; [|exact Hreach]. by split.
Qed.

(** The closure invariant is kept by a run, and the names it was called on
    are resolved or active afterwards. *)
Lemma run_closed l st st' :
  run packages l st st' →
  ∀ A, closed_upto packages A st →
       closed_upto packages A st'
       ∧ ∀ x, x ∈ l → x ∈ dom packages → x ∈ resolved st' ∨ x ∈ A.
Proof.
  induction 1 as [st|name rest st st' Hr Hrun IH|name rest st st' Hr Hs Hrun IH
                 |name rest st st' Hr Hs Hp Hrun IH
                 |name rest st st1 st' Hr Hs Hp Hrun1 IH1 Hrun2 IH2];
    intros A Hinv.
  - split; [done|]. intros x Hx. by apply elem_of_nil in Hx.
  - destruct (IH A Hinv) as [Hinv' Hrest]. split; [done|].
    intros x [->|Hx]%elem_of_cons Hd; [|by auto].
    left. apply run_mono in Hrun as [Hsub _]. by apply Hsub.
  - destruct (IH A Hinv) as [Hinv' Hrest]. split; [done|].
    intros x [->|Hx]%elem_of_cons Hd; [|by auto].
    destruct Hinv as [Hseen _]. destruct (Hseen name Hs Hd) as [?|?]; [|by right].
    left. apply run_mono in Hrun as [Hsub _]. by apply Hsub.
  - destruct (IH A) as [Hinv' Hrest].
    { destruct Hinv as [Hseen Hdeps]. split; [|done]. simpl.
      intros x [->%elem_of_singleton|Hx]%elem_of_union Hd; [|by auto].
      apply elem_of_dom in Hd as [? Hd]. congruence. }
    split; [done|].
    intros x [->|Hx]%elem_of_cons Hd; [|by auto].
    apply elem_of_dom in Hd as [? Hd]. congruence.
  - destruct (IH1 ({[name]} ∪ A)) as [[Hseen1 Hdeps1] Hcalled].
    { destruct Hinv as [Hseen Hdeps]. split; simpl.
      - intros x [->%elem_of_singleton|Hx]%elem_of_union Hd; [set_solver|].
        destruct (Hseen x Hx Hd); set_solver.
      - intros p d Hpr Hed Hd. destruct (Hdeps p d Hpr Hed Hd); set_solver. }
    destruct (IH2 A) as [Hinv' Hrest].
    { split; simpl.
      - intros x Hx Hd. destruct (Hseen1 x Hx Hd); set_solver.
      - intros p d [->%elem_of_singleton|Hpr]%elem_of_union Hed Hd.
        + destruct (Hcalled d Hed Hd); set_solver.
        + destruct (Hdeps1 p d Hpr Hed Hd); set_solver. }
    split; [done|].
    intros x [->|Hx]%elem_of_cons Hd; [|by auto].
    left. apply run_mono in Hrun2 as [Hsub _]. apply Hsub. simpl. set_solver.
Qed.

(** *** The output does not influence the sets *)

Lemma resolve_rec_same_sets fuel :
  ∀ name s t s', same_sets s t →
    resolve_rec fuel packages name s = Some s' →
    ∃ t', resolve_rec fuel packages name t = Some t' ∧ same_sets s' t'.
Proof.
  induction fuel as [|fuel IH]; intros name s t s' [Hr Hs]; [done|].
  rewrite !resolve_rec_unfold, <- Hr, <- Hs.
  case_decide; [intros [= <-]; by exists t|].
  case_decide; [intros [= <-]; by exists t|].
  destruct (packages !! name).
  - destruct (for_each (resolve_rec fuel packages) _ (add_seen name s))
      as [s1|] eqn:E; [|done].
    intros [= <-].
    assert (∀ l a b a', same_sets a b →
              for_each (resolve_rec fuel packages) l a = Some a' →
              ∃ b', for_each (resolve_rec fuel packages) l b = Some b'
                    ∧ same_sets a' b') as Hloop.
    { induction l as [|x l IHl]; intros a b a' Hab; simpl.
      - intros [= <-]. by eauto.
      - destruct (resolve_rec fuel packages x a) as [a1|] eqn:Ea; [|done].
        destruct (IH _ _ _ _ Hab Ea) as (b1 & -> & Hab1). by apply IHl. }
    assert (same_sets (add_seen name s) (add_seen name t)) as Hst
      by (split; simpl; congruence).
    destruct (Hloop _ _ _ _ Hst E) as (t1 & -> & [Hr1 Hs1]).
    eexists; split; [done|]. split; simpl; congruence.
  - intros [= <-]. eexists; split; [done|]. split; simpl; congruence.
Qed.

(** *** The top-level call *)

(** A call with the default arguments returns, and is a run from the empty
    sets. *)
Lemma resolve_dependencies_run root stdout :
  ∃ st, resolve_dependencies root packages None None stdout
        = Some (resolved st, out st)
        ∧ resolve_rec (resolve_fuel packages) packages root (mkR ∅ ∅ stdout)
          = Some st
        ∧ run packages [root] (mkR ∅ ∅ stdout) st.
Proof.
  destruct (resolve_rec_total (resolve_fuel packages) root
              (mkR ∅ ∅ stdout)) as [st Hst].
  { unfold resolve_fuel, unseen. simpl.
    rewrite <- size_dom. apply Nat.lt_succ_r, subseteq_size. set_solver. }
  exists st. split; [|split; [done|by eapply resolve_rec_run]].
  unfold resolve_dependencies. cbn [default]. by rewrite Hst.
Qed.
End Resolve.

Section ForEachExt.
Context {St A : Type}.

Lemma for_each_ext (body body' : A → St → option St) l st :
  (∀ x s, body x s = body' x s) → for_each body l st = for_each body' l st.
Proof.
  intros Hbody. revert st. induction l as [|x l IH]; intros st; simpl; [done|].
  rewrite Hbody. destruct (body' x st); [apply IH | done].
Qed.
End ForEachExt.

(** The resolver reads the index only through the names it holds and their
    first-alternative dependencies. *)
Lemma resolve_rec_ext (P P' : gmap str (gmap str str)) :
  (∀ p, is_Some (P !! p) ↔ is_Some (P' !! p)) →
  (∀ p, first_alt_deps P p = first_alt_deps P' p) →
  ∀ fuel name st, resolve_rec fuel P name st = resolve_rec fuel P' name st.
Proof.
  intros Hdom Hdeps. induction fuel as [|fuel IH]; intros name st; [done|].
  rewrite !resolve_rec_unfold, Hdeps.
  repeat case_decide; try done.
  specialize (Hdom name).
  destruct (P !! name) as [i|] eqn:E, (P' !! name) as [i'|] eqn:E'.
  - f_equal. by apply for_each_ext.
  - destruct Hdom as [Hdom _]. destruct Hdom as [? ?]; [by eauto | done].
  - destruct Hdom as [_ Hdom]. destruct Hdom as [? ?]; [by eauto | done].
  - done.
Qed.

Lemma resolve_dependencies_ext (P P' : gmap str (gmap str str)) :
  (∀ p, is_Some (P !! p) ↔ is_Some (P' !! p)) →
  (∀ p, first_alt_deps P p = first_alt_deps P' p) →
  ∀ root r0 s0 stdout,
    resolve_dependencies root P r0 s0 stdout
    = resolve_dependencies root P' r0 s0 stdout.
Proof.
  intros Hdom Hdeps root r0 s0 stdout. unfold resolve_dependencies.
  assert (resolve_fuel P = resolve_fuel P') as ->.
  { unfold resolve_fuel. f_equal. rewrite <- !size_dom. f_equal.
    apply set_eq. intros x. rewrite !elem_of_dom. apply Hdom. }
  by rewrite (resolve_rec_ext P P' Hdom Hdeps).
Qed.

(** ** Properties of resolve_dependencies *)

Lemma scenario_A_resolve_full :
  resolve_dependencies (lit "A") scenario_A None None []
  = Some (list_to_set [lit "A"; lit "B"; lit "C"], []).
Proof. vm_compute. reflexivity. Qed.

(** C2. Closure completeness: in the set returned for any root and index,
    every first-alternative dependency [d] of a member [p] that is present in
    the index is a member too. The exception the design document allows for
    a dependency cut on an active recursion path is never needed at the end
    of the top-level call: the call that was active has added its name by
    then. Hence the returned set is exactly the set of names reachable from a
    root present in the index along first-alternative edges that stay in the
    index. *)
Theorem closure_complete (packages : gmap str (gmap str str)) (root : str)
    (stdout : list str) :
  ∃ closure stdout',
    resolve_dependencies root packages None None stdout
    = Some (closure, stdout')
    ∧ (∀ p d, p ∈ closure → d ∈ first_alt_deps packages p →
              d ∈ dom packages → d ∈ closure)
    ∧ (∀ x, x ∈ closure ↔
            root ∈ dom packages ∧ rtc (index_edge packages) root x).
Proof.
  destruct (resolve_dependencies_run packages root stdout)
    as (st & Hcall & _ & Hrun).
  exists (resolved st), (out st). split; [done|].
  destruct (run_closed packages _ _ _ Hrun ∅) as [[_ Hdeps] Hroot].
  { split; simpl; set_solver. }
  assert (∀ p d, p ∈ resolved st → d ∈ first_alt_deps packages p →
                 d ∈ dom packages → d ∈ resolved st) as Hclosed.
  { intros p d Hp Hd Hin. destruct (Hdeps p d Hp Hd Hin); set_solver. }
  split; [exact Hclosed|].
  intros x. split.
  - intros Hx. destruct (run_reachable packages _ _ _ Hrun x Hx)
      as [?|(y & ->%list_elem_of_singleton & ? & ?)]; [set_solver | done].
  - intros [Hdom Hreach].
    apply (rtc_ind_r (R := index_edge packages) (λ y, y ∈ resolved st) root);
      [| |exact Hreach].
    + destruct (Hroot root) as [?|?]; [set_solver | done | done | set_solver].
    + intros y z _ [Hdep Hz] IH. by eapply Hclosed.
Qed.

Lemma closure_complete_witness :
  ∃ closure stdout',
    resolve_dependencies (lit "A") scenario_A None None []
    = Some (closure, stdout')
    ∧ lit "A" ∈ closure
    ∧ lit "B" ∈ first_alt_deps scenario_A (lit "A")
    ∧ lit "B" ∈ dom scenario_A
    ∧ lit "B" ∈ closure.
Proof.
  destruct (closure_complete scenario_A (lit "A") []) as (c & o & Hc & Hall & _).
  exists c, o. split; [exact Hc|].
  assert (lit "A" ∈ c) as HA.
  { rewrite (scenario_A_resolve_full) in Hc. injection Hc as <- _. set_solver. }
  assert (lit "B" ∈ first_alt_deps scenario_A (lit "A")) as HB
    by (vm_compute; apply list_elem_of_here).
  assert (lit "B" ∈ dom scenario_A) as HD
    by (apply elem_of_dom; vm_compute; eexists; reflexivity).
  split; [exact HA|]. split; [exact HB|]. split; [exact HD|].
  exact (Hall _ _ HA HB HD).
Defined.

(** C3. Root membership: the call returns; a root present in the index is in
    the returned set, and for a root absent from the index the returned set
    is empty. *)
Theorem root_membership (packages : gmap str (gmap str str)) (root : str)
    (stdout : list str) :
  ∃ closure stdout',
    resolve_dependencies root packages None None stdout
    = Some (closure, stdout')
    ∧ (root ∈ dom packages → root ∈ closure)
    ∧ (root ∉ dom packages → closure = ∅).
Proof.
  destruct (resolve_dependencies_run packages root stdout)
    as (st & Hcall & Hrec & _).
  exists (resolved st), (out st). split; [done|].
  unfold resolve_fuel in Hrec. rewrite resolve_rec_unfold in Hrec.
  simpl in Hrec. rewrite !decide_False in Hrec by set_solver.
  split.
  - intros [info Hp]%elem_of_dom. rewrite Hp in Hrec.
    destruct (for_each _ _ _) as [s1|]; [|done].
    injection Hrec as <-. simpl. set_solver.
  - intros Hp%not_elem_of_dom. rewrite Hp in Hrec. by injection Hrec as <-.
Qed.

Lemma root_membership_witness :
  lit "A" ∈ dom scenario_C ∧ (lit "Z" ∉ dom scenario_C)
  ∧ (∃ closure stdout',
       resolve_dependencies (lit "A") scenario_C None None []
       = Some (closure, stdout') ∧ lit "A" ∈ closure)
  ∧ (∃ stdout',
       resolve_dependencies (lit "Z") scenario_C None None []
       = Some (∅, stdout')).
Proof.
  assert (lit "A" ∈ dom scenario_C) as HA
    by (apply elem_of_dom; vm_compute; eexists; reflexivity).
  assert (lit "Z" ∉ dom scenario_C) as HZ
    by (apply not_elem_of_dom; vm_compute; reflexivity).
  split; [exact HA|]. split; [exact HZ|]. split.
  - destruct (root_membership scenario_C (lit "A") []) as (c & o & Hc & Hin & _).
    exists c, o. split; [exact Hc | exact (Hin HA)].
  - destruct (root_membership scenario_C (lit "Z") []) as (c & o & Hc & _ & He).
    exists o. rewrite <- (He HZ). exact Hc.
Defined.

(** C5. Alternative selection. Let the [Depends] field [f] of package [a]
    hold the group [c|d], [c] being the text before the first bar. Then the
    group contributes the name of [c] alone to the dependency edges of [a];
    the closure of any root is the same when [d] is replaced by any other
    text [d']; every member of a closure other than the root is a
    first-alternative dependency of some member; and when the field is just
    [c|d] and the name of [c] is absent from the index, the closure of [a] is
    [{a}], whether or not [d] is present. *)
Theorem alternative_selection (packages : gmap str (gmap str str))
    (a : str) (info : gmap str str) (f f' : str) (gs1 gs2 : list str)
    (c d d' : str) (root : str) (stdout : list str) :
  packages !! a = Some info →
  info !! DEPENDS = Some f →
  split COMMA f = gs1 ++ (c ++ PIPE :: d) :: gs2 →
  split COMMA f' = gs1 ++ (c ++ PIPE :: d') :: gs2 →
  PIPE ∉ c →
  first_alt_deps packages a
  = flat_map parse_group gs1 ++ candidate_name c :: flat_map parse_group gs2
  ∧ resolve_dependencies root (<[a := <[DEPENDS := f']> info]> packages)
      None None stdout
    = resolve_dependencies root packages None None stdout
  ∧ (∃ closure stdout',
       resolve_dependencies root packages None None stdout
       = Some (closure, stdout')
       ∧ ∀ x, x ∈ closure →
              x = root ∨ ∃ p, p ∈ closure ∧ x ∈ first_alt_deps packages p)
  ∧ (gs1 = [] → gs2 = [] → candidate_name c ∉ dom packages →
     ∃ stdout', resolve_dependencies a packages None None stdout
                = Some ({[a]}, stdout')).
Proof.
  intros Ha Hf Hsplit Hsplit' Hc.
  assert (first_alt_deps packages a
          = flat_map parse_group gs1
            ++ candidate_name c :: flat_map parse_group gs2) as Hdeps.
  { unfold first_alt_deps, parse_dependencies. rewrite Ha, Hf, Hsplit.
    rewrite flat_map_app. simpl. by rewrite parse_group_alternatives. }
  split; [exact Hdeps|]. split; [|split].
  - apply resolve_dependencies_ext.
    + intros p. destruct (decide (a = p)) as [<-|Hne].
      * rewrite lookup_insert_eq, Ha. split; by eauto.
      * by rewrite lookup_insert_ne.
    + intros p. destruct (decide (a = p)) as [<-|Hne].
      * rewrite Hdeps. unfold first_alt_deps, parse_dependencies.
        rewrite !lookup_insert_eq, Hsplit', flat_map_app. simpl.
        by rewrite parse_group_alternatives.
      * unfold first_alt_deps. by rewrite lookup_insert_ne.
  - destruct (resolve_dependencies_run packages root stdout)
      as (st & Hcall & _ & Hrun).
    exists (resolved st), (out st). split; [done|].
    intros x Hx.
    destruct (run_entered packages _ _ _ Hrun x Hx) as [?|[?|?]];
      [set_solver | set_solver | by right].
  - intros -> -> Hmissing. simpl in Hdeps.
    apply not_elem_of_dom in Hmissing.
    unfold resolve_dependencies, resolve_fuel. cbn [default].
    rewrite resolve_rec_unfold. simpl.
    rewrite !decide_False by set_solver. rewrite Ha, Hdeps.
    destruct (size packages) as [|n] eqn:Hsz.
    { apply map_size_empty_inv in Hsz. subst. by rewrite lookup_empty in Ha. }
    cbn [for_each]. rewrite resolve_rec_unfold. simpl.
    rewrite decide_False by set_solver.
    destruct (decide (candidate_name c ∈ {[a]} ∪ ∅)) as [Hin|Hout]; simpl.
    + eexists. f_equal. f_equal. set_solver.
    + rewrite Hmissing. simpl. eexists. f_equal. f_equal. set_solver.
Qed.

Lemma alternative_selection_witness :
  alternative_present !! lit "A" = Some {[DEPENDS := lit "C|D"]}
  ∧ (candidate_name (lit "C") ∉ dom alternative_present)
  ∧ lit "D" ∈ dom alternative_present
  ∧ first_alt_deps alternative_present (lit "A") = [lit "C"]
  ∧ ∃ stdout', resolve_dependencies (lit "A") alternative_present None None []
               = Some ({[lit "A"]}, stdout').
Proof.
  assert (alternative_present !! lit "A" = Some {[DEPENDS := lit "C|D"]}) as Ha
    by (vm_compute; reflexivity).
  assert (candidate_name (lit "C") ∉ dom alternative_present) as Hc
    by (apply not_elem_of_dom; vm_compute; reflexivity).
  assert (lit "D" ∈ dom alternative_present) as Hd
    by (apply elem_of_dom; vm_compute; eexists; reflexivity).
  assert (PIPE ∉ lit "C") as Hp.
  { intros Hin. apply list_elem_of_In in Hin. vm_compute in Hin.
    destruct Hin as [Hin|[]]. discriminate Hin. }
  destruct (alternative_selection alternative_present (lit "A")
              {[DEPENDS := lit "C|D"]} (lit "C|D") (lit "C|E") [] []
              (lit "C") (lit "D") (lit "E") (lit "A") [] Ha)
    as (Hdeps & _ & _ & Hclosure);
    [vm_compute; reflexivity | vm_compute; reflexivity
    | vm_compute; reflexivity | exact Hp |].
  split; [exact Ha|]. split; [exact Hc|]. split; [exact Hd|].
  split; [exact Hdeps|]. exact (Hclosure eq_refl eq_refl Hc).
Defined.

(** C8, as amended. A call on a name absent from the index raises nothing
    and returns [resolved] as it was, so the name is not added; it prints the
    warning when the name is in neither [resolved] nor [seen] (always so with
    the default arguments) and prints nothing when the name is already in one
    of them. On scenario C the call on [A] returns exactly [{A}] and prints
    the warning for [Z]. *)
Theorem missing_name (packages : gmap str (gmap str str)) (name : str)
    (r0 s0 : option (gset str)) (stdout : list str) :
  packages !! name = None →
  resolve_dependencies name packages r0 s0 stdout
  = Some (default ∅ r0,
          if decide (name ∈ default ∅ r0 ∨ name ∈ default ∅ s0)
          then stdout else stdout ++ [warning name])
  ∧ resolve_dependencies name packages None None stdout
    = Some (∅, stdout ++ [warning name])
  ∧ resolve_dependencies (lit "A") scenario_C None None []
    = Some ({[lit "A"]}, [warning (lit "Z")]).
Proof.
  intros Hp.
  assert (∀ r0 s0,
    resolve_dependencies name packages r0 s0 stdout
    = Some (default ∅ r0,
            if decide (name ∈ default ∅ r0 ∨ name ∈ default ∅ s0)
            then stdout else stdout ++ [warning name])) as Hgen.
  { clear r0 s0. intros r0 s0.
    unfold resolve_dependencies, resolve_fuel.
    rewrite resolve_rec_unfold. simpl.
    repeat case_decide; simpl; try done; try tauto.
    by rewrite Hp. }
  split; [apply Hgen|]. split.
  - rewrite Hgen. simpl. rewrite decide_False; [done|]. set_solver.
  - vm_compute. reflexivity.
Qed.

Lemma missing_name_witness :
  scenario_C !! lit "Z" = None
  ∧ resolve_dependencies (lit "Z") scenario_C None None []
    = Some (∅, [warning (lit "Z")])
  ∧ resolve_dependencies (lit "Z") scenario_C
      (Some ∅) (Some {[lit "A"; lit "Z"]}) [warning (lit "Z")]
    = Some (∅, [warning (lit "Z")]).
Proof.
  assert (scenario_C !! lit "Z" = None) as HZ by (vm_compute; reflexivity).
  split; [exact HZ|]. split.
  - exact (proj1 (proj2 (missing_name scenario_C (lit "Z") None None [] HZ))).
  - rewrite (proj1 (missing_name scenario_C (lit "Z") (Some ∅)
                      (Some {[lit "A"; lit "Z"]}) [warning (lit "Z")] HZ)).
    simpl. rewrite decide_True; [reflexivity|]. right. set_solver.
Defined.

(** C8 as the design document words it fails where the absent name was
    called before: in the index [{A: Depends = "Z, Z"}] the name [Z] is
    called twice, and the second call, which finds [Z] in [seen], prints no
    warning. *)
Lemma missing_name_counterexample :
  first_alt_deps twice_missing (lit "A") = [lit "Z"; lit "Z"]
  ∧ twice_missing !! lit "Z" = None
  ∧ resolve_dependencies (lit "A") twice_missing None None []
    = Some ({[lit "A"]}, [warning (lit "Z")])
  ∧ ¬ (∀ (packages : gmap str (gmap str str)) name r0 s0 stdout,
         packages !! name = None →
         ∃ closure,
           resolve_dependencies name packages r0 s0 stdout
           = Some (closure, stdout ++ [warning name])).
Proof.
  split; [vm_compute; reflexivity|]. split; [vm_compute; reflexivity|].
  split; [vm_compute; reflexivity|].
  intros Hclaim.
  destruct (Hclaim twice_missing (lit "Z") (Some ∅)
              (Some {[lit "A"; lit "Z"]}) [warning (lit "Z")])
    as [closure Hcall]; [vm_compute; reflexivity|].
  vm_compute in Hcall. discriminate Hcall.
Qed.

(** C9. Idempotence: two calls in a row with the same root and index, each
    with the default arguments, return equal sets; the second call runs with
    the output the first one left. *)
Theorem resolve_idempotent (packages : gmap str (gmap str str)) (root : str)
    (stdout : list str) :
  ∃ closure stdout1 stdout2,
    resolve_dependencies root packages None None stdout
    = Some (closure, stdout1)
    ∧ resolve_dependencies root packages None None stdout1
      = Some (closure, stdout2).
Proof.
  destruct (resolve_dependencies_run packages root stdout)
    as (st & Hcall & Hrec & _).
  destruct (resolve_rec_same_sets packages (resolve_fuel packages) root
              (mkR ∅ ∅ stdout) (mkR ∅ ∅ (out st)) st)
    as (t & Ht & [Hr _]); [done | done |].
  exists (resolved st), (out st), (out t). split; [done|].
  unfold resolve_dependencies. cbn [default]. rewrite Ht. simpl. by rewrite Hr.
Qed.

(** ** compute_install_order: the function and the relation *)

Section Before.
Implicit Types (l : list str) (d p : str).

Lemma before_app_l d p l l' : before d p l → before d p (l ++ l').
Proof.
  intros (i & j & Hi & Hj & Hlt). exists i, j.
  split; [|split; [|done]]; by apply lookup_app_l_Some.
Qed.

Lemma before_app_r d p l l' : d ∈ l → p ∈ l' → before d p (l ++ l').
Proof.
  intros (i & Hi)%list_elem_of_lookup (j & Hj)%list_elem_of_lookup.
  exists i, (length l + j). split; [by apply lookup_app_l_Some|]. split.
  - rewrite lookup_app_r by lia. by replace (length l + j - length l) with j by lia.
  - apply lookup_lt_Some in Hi. lia.
Qed.
End Before.

Section Order.
Context (closure : gset str) (packages : gmap str (gmap str str)).
Implicit Types (pkg dep : str) (st : OState) (fuel : nat).

Lemma dfs_unfold fuel pkg st :
  dfs (S fuel) closure packages pkg st
  = if decide (pkg ∈ visited st) then Some st
    else (λ st', mkO (order st' ++ [pkg]) (visited st')) <$>
           for_each (visit fuel closure packages)
                    (first_alt_deps packages pkg)
                    (mkO (order st) ({[pkg]} ∪ visited st)).
Proof.
  simpl. case_decide; [done|]. unfold first_alt_deps.
  destruct (packages !! pkg) as [info|]; [|done].
  destruct (info !! DEPENDS); [|done].
  by destruct (for_each _ _ _).
Qed.

Lemma walk_cons dep rest st st1 st' :
  walk closure packages [dep] st st1 → walk closure packages rest st1 st' →
  walk closure packages (dep :: rest) st st'.
Proof.
  intros H1 H2. inversion H1; subst.
  - match goal with H : walk _ _ [] _ _ |- _ => inversion H; subst end.
    by apply walk_skip.
  - match goal with H : walk _ _ [] _ _ |- _ => inversion H; subst end.
    by apply walk_visited.
  - match goal with H : walk _ _ [] _ _ |- _ => inversion H; subst end.
    by eapply walk_enter.
Qed.

Lemma visit_walk fuel :
  ∀ dep st st', visit fuel closure packages dep st = Some st' →
                walk closure packages [dep] st st'.
Proof.
  induction fuel as [|fuel IH]; intros dep st st'; unfold visit.
  - case_decide; [done|]. intros [= ->]. apply walk_skip; [done | constructor].
  - case_decide as Hin; [|intros [= ->]; apply walk_skip; [done | constructor]].
    rewrite dfs_unfold.
    case_decide; [intros [= ->]; apply walk_visited; [done.. | constructor]|].
    destruct (for_each _ _ _) as [s1|] eqn:E; [|done].
    intros [= <-]. eapply walk_enter; [done | done | | constructor].
    clear -IH E. revert E. generalize (mkO (order st) ({[dep]} ∪ visited st)).
    induction (first_alt_deps packages dep) as [|x l IHl]; intros s; simpl.
    + intros [= ->]. constructor.
    + destruct (visit fuel closure packages x s) as [s2|] eqn:Ex; [|done].
      intros Hl. eapply walk_cons; [by apply IH | by apply IHl].
Qed.

Lemma for_each_visit_walk fuel l st st' :
  for_each (visit fuel closure packages) l st = Some st' →
  walk closure packages l st st'.
Proof.
  revert st. induction l as [|x l IHl]; intros st; simpl.
  - intros [= ->]. constructor.
  - destruct (visit fuel closure packages x st) as [s2|] eqn:Ex; [|done].
    intros Hl. eapply walk_cons; [by eapply visit_walk | by apply IHl].
Qed.

Lemma walk_visited_mono l st st' :
  walk closure packages l st st' → visited st ⊆ visited st'.
Proof. induction 1; simpl in *; set_solver. Qed.

(** With more fuel than the closure has unvisited members, a visit
    returns. *)
Lemma visit_total fuel :
  ∀ dep st, size (closure ∖ visited st) < fuel →
            ∃ st', visit fuel closure packages dep st = Some st'.
Proof.
  induction fuel as [|fuel IH]; intros dep st Hsz; [lia|].
  unfold visit. case_decide as Hin; [|by eauto].
  rewrite dfs_unfold. case_decide as Hv; [by eauto|].
  assert (size (closure ∖ ({[dep]} ∪ visited st)) < size (closure ∖ visited st))
    as Hlt.
  { apply subset_size, strict_spec_alt. split; [set_solver|].
    intros Heq. assert (dep ∈ closure ∖ visited st) as Hd by set_solver.
    rewrite <- Heq in Hd. set_solver. }
  destruct (for_each_total (visit fuel closure packages)
              (λ s, size (closure ∖ visited s) < fuel)
              (first_alt_deps packages dep)
              (mkO (order st) ({[dep]} ∪ visited st)))
    as (s1 & -> & _); [simpl; lia | | by eauto].
  intros x s _ Hs. destruct (IH x s Hs) as [s' Hs']. exists s'. split; [done|].
  eapply Nat.le_lt_trans; [|exact Hs]. apply subseteq_size.
  apply visit_walk, walk_visited_mono in Hs'. set_solver.
Qed.

(** More fuel does not change what a visit returns. *)
Lemma visit_fuel_mono fuel fuel' :
  fuel ≤ fuel' →
  ∀ dep st st', visit fuel closure packages dep st = Some st' →
                visit fuel' closure packages dep st = Some st'.
Proof.
  revert fuel'. induction fuel as [|fuel IH]; intros fuel' Hle dep st st';
    unfold visit; (case_decide; [|done]); [done|].
  destruct fuel' as [|fuel']; [lia|].
  rewrite !dfs_unfold. case_decide; [done|].
  destruct (for_each (visit fuel closure packages) _ _) as [s1|] eqn:E; [|done].
  intros [= <-].
  erewrite for_each_mono; [done | | exact E].
  intros x s s'. apply IH. lia.
Qed.

(** *** What a walk appends *)

Lemma walk_spec l st st' :
  walk closure packages l st st' →
  ∃ new, walk_post closure packages l st st' new.
Proof.
  induction 1 as [st|dep rest st st' Hout Hwalk IH
                 |pkg rest st st' Hin Hv Hwalk IH
                 |pkg rest st st1 st' Hin Hv Hwalk1 IH1 Hwalk2 IH2].
  - exists []. unfold walk_post. rewrite app_nil_r.
    repeat split; try (intros; set_solver). constructor.
  - destruct IH as (new & Ho & Hvis & Hnd & Hnew & Hreach & Hdone & Hedge).
    exists new. repeat split; try done; try (by apply Hnew).
    + intros x Hx. destruct (Hreach x Hx) as (y & ? & ? & ?).
      exists y. set_solver.
    + intros y [->|Hy]%elem_of_cons Hc; [done | by auto].
  - destruct IH as (new & Ho & Hvis & Hnd & Hnew & Hreach & Hdone & Hedge).
    exists new. repeat split; try done; try (by apply Hnew).
    + intros x Hx. destruct (Hreach x Hx) as (y & ? & ? & ?).
      exists y. set_solver.
    + intros y [->|Hy]%elem_of_cons Hc; [|by auto].
      apply walk_visited_mono in Hwalk. by apply Hwalk.
  - destruct IH1 as (new1 & Ho1 & Hvis1 & Hnd1 & Hnew1 & Hreach1 & Hdone1 & Hedge1).
    destruct IH2 as (new2 & Ho2 & Hvis2 & Hnd2 & Hnew2 & Hreach2 & Hdone2 & Hedge2).
    simpl in *.
    assert (order st' = order st ++ (new1 ++ pkg :: new2)) as Ho.
    { rewrite Ho2, Ho1, <- !app_assoc. done. }
    assert (∀ x, x ∈ new1 → rtc (closure_edge closure packages) pkg x) as Hr1.
    { intros x Hx. destruct (Hreach1 x Hx) as (y & Hy & Hyc & Hyx).
      eapply rtc_l; [|exact Hyx]. by split. }
    exists (new1 ++ pkg :: new2). split; [exact Ho|]. split; [|split; [|split]].
    + rewrite Hvis2, Hvis1. rewrite list_to_set_app_L, list_to_set_cons.
      set_solver.
    + apply NoDup_app. split; [done|]. split.
      * intros x Hx [->|Hx2]%elem_of_cons.
        -- destruct (Hnew1 _ Hx). set_solver.
        -- destruct (Hnew2 _ Hx2) as [Hnv _]. apply Hnv. rewrite Hvis1.
           rewrite elem_of_union, elem_of_list_to_set. by right.
      * apply NoDup_cons. split; [|done].
        intros Hx2. destruct (Hnew2 _ Hx2) as [Hnv _]. apply Hnv.
        rewrite Hvis1. set_solver.
    + intros x [Hx|[->|Hx]%elem_of_cons]%elem_of_app.
      * destruct (Hnew1 _ Hx). set_solver.
      * done.
      * destruct (Hnew2 _ Hx) as [Hnv ?]. split; [|done].
        rewrite Hvis1 in Hnv. set_solver.
    + split; [|split].
      * intros x [Hx|[->|Hx]%elem_of_cons]%elem_of_app.
        -- exists pkg. split; [set_solver|]. split; [done|]. by apply Hr1.
        -- exists pkg. split; [set_solver|]. split; [done|]. done.
        -- destruct (Hreach2 x Hx) as (y & ? & ? & ?). exists y. set_solver.
      * intros y [->|Hy]%elem_of_cons Hc; [|by auto].
        rewrite Hvis2, Hvis1. set_solver.
      * intros x d [Hx|[->|Hx]%elem_of_cons]%elem_of_app Hed.
        -- destruct (Hedge1 x d Hx Hed) as [Hb|[[Hd Hnd]|Hr]].
           ++ left. rewrite Ho2. simpl. rewrite <- app_assoc.
              by apply before_app_l.
           ++ apply elem_of_union in Hd as [->%elem_of_singleton|Hd].
              ** right; right. by apply Hr1.
              ** right; left. done.
           ++ by right; right.
        -- destruct Hed as [Hd Hdc].
           specialize (Hdone1 d Hd Hdc). rewrite Hvis1 in Hdone1.
           apply elem_of_union in Hdone1 as [Hdv|Hdn].
           ++ apply elem_of_union in Hdv as [->%elem_of_singleton|Hdv].
              ** right; right. done.
              ** destruct (decide (d ∈ order st)) as [Hdo|Hdo].
                 --- left. rewrite Ho.
                     apply before_app_r; [done|]. set_solver.
                 --- right; left. done.
           ++ apply elem_of_list_to_set in Hdn. left. rewrite Ho, app_assoc.
              apply before_app_r; [set_solver|]. set_solver.
        -- destruct (Hedge2 x d Hx Hed) as [Hb|[[Hd Hnd]|Hr]].
           ++ by left.
           ++ right; left. rewrite Hvis1 in Hd. rewrite Ho1 in Hnd.
              rewrite elem_of_app in Hnd.
              assert ((d ∉ order st) ∧ (d ∉ new1) ∧ d ≠ pkg) as (? & ? & ?).
              { repeat split; intros ?; apply Hnd; set_solver. }
              split; [|done].
              rewrite !elem_of_union, elem_of_list_to_set in Hd. set_solver.
           ++ by right; right.
Qed.

(** *** The whole function *)

(** The loop of [compute_install_order] over an iteration order of the
    closure returns, and is a walk from the empty state. *)
Lemma compute_install_order_walk iter :
  iteration_of closure iter →
  ∃ st, compute_install_order iter closure packages = Some (order st)
        ∧ walk closure packages iter (mkO [] ∅) st.
Proof.
  intros [_ Hiter].
  assert (∀ x s, x ∈ iter →
            (if decide (x ∉ visited s)
             then dfs (dfs_fuel closure) closure packages x s else Some s)
            = visit (dfs_fuel closure) closure packages x s) as Hbody.
  { intros x s Hx. unfold visit.
    destruct (decide (x ∈ closure)) as [_|Hout]; [|by destruct Hout; apply Hiter].
    case_decide as Hv; [done|]. unfold dfs_fuel. rewrite dfs_unfold.
    by rewrite decide_True. }
  destruct (for_each_total (visit (dfs_fuel closure) closure packages)
              (λ _, True) iter (mkO [] ∅) I) as (st & Hst & _).
  { intros x s _ _.
    destruct (visit_total (dfs_fuel closure) x s) as [s' ?];
      [|by eauto].
    unfold dfs_fuel. apply Nat.lt_succ_r, subseteq_size. set_solver. }
  exists st. split; [|by eapply for_each_visit_walk].
  unfold compute_install_order.
  assert (∀ l s, (∀ x, x ∈ l → x ∈ iter) →
            for_each (λ pkg st0,
                if decide (pkg ∉ visited st0)
                then dfs (dfs_fuel closure) closure packages pkg st0
                else Some st0) l s
            = for_each (visit (dfs_fuel closure) closure packages) l s)
    as Hloop.
  { induction l as [|x l IHl]; intros s Hl; simpl; [done|].
    rewrite Hbody by set_solver.
    destruct (visit _ _ _ x s); [apply IHl; set_solver | done]. }
  rewrite Hloop by done. by rewrite Hst.
Qed.

(** The result of the whole function, for any iteration order. *)
Lemma compute_install_order_spec iter :
  iteration_of closure iter →
  ∃ ord, compute_install_order iter closure packages = Some ord
         ∧ NoDup ord
         ∧ (∀ x, x ∈ ord ↔ x ∈ closure)
         ∧ (∀ p d, p ∈ closure → closure_edge closure packages p d →
                   before d p ord
                   ∨ rtc (closure_edge closure packages) d p).
Proof.
  intros Hit. destruct (compute_install_order_walk iter Hit) as (st & Hcall & Hwalk).
  destruct (walk_spec _ _ _ Hwalk)
    as (new & Ho & Hvis & Hnd & Hnew & Hreach & Hdone & Hedge).
  simpl in *. subst new.
  assert (∀ x, x ∈ order st ↔ x ∈ closure) as Hmem.
  { intros x. split; [intros Hx; by apply Hnew|].
    intros Hx. destruct Hit as [_ Hit].
    assert (x ∈ visited st) as Hxv by (apply Hdone; [by apply Hit | done]).
    rewrite Hvis in Hxv. set_solver. }
  exists (order st). split; [done|]. split; [done|]. split; [done|].
  intros p d Hp Hed.
  destruct (Hedge p d (proj2 (Hmem p) Hp) Hed) as [?|[[Hd _]|?]];
    [by left | set_solver | by right].
Qed.
End Order.

Lemma iteration_of_elements (X : gset str) : iteration_of X (elements X).
Proof. split; [apply NoDup_elements|]. intros x. apply elem_of_elements. Qed.

Lemma iteration_of_list (l : list str) :
  NoDup l → iteration_of (list_to_set l) l.
Proof. intros Hl. split; [done|]. intros x. by rewrite elem_of_list_to_set. Qed.

Lemma lit_A_B : lit "A" ≠ lit "B".
Proof. intros H. discriminate H. Qed.

Lemma NoDup_A_B : NoDup [lit "A"; lit "B"].
Proof.
  apply NoDup_cons. split; [|apply NoDup_singleton].
  intros H%list_elem_of_singleton. by apply lit_A_B.
Qed.

Lemma NoDup_B_A : NoDup [lit "B"; lit "A"].
Proof.
  apply NoDup_cons. split; [|apply NoDup_singleton].
  intros H%list_elem_of_singleton. by apply lit_A_B.
Qed.

(** In a list of two distinct names the second is not before the first. *)
Lemma not_before_pair (x y : str) : x ≠ y → ¬ before y x [x; y].
Proof.
  intros Hne (i & j & Hi & Hj & Hlt).
  destruct i as [|[|i]], j as [|[|j]]; simpl in *; simplify_eq; lia.
Qed.

(** ** Properties of compute_install_order *)

(** C1. Order validity fails where the closure holds a dependency cycle. On
    the index of scenario B, whose closure [{A, B}] is what
    [resolve_dependencies] returns for [A], each of [A] and [B] is a
    first-alternative dependency of the other. [compute_install_order]
    returns [[B; A]] or [[A; B]], according to the order of iteration over
    the set, and in both the dependency of the name placed first comes after
    it, where the docstring of the function promises an order in which
    dependencies are installed before dependents. *)
Theorem order_invalid_on_cycle :
  resolve_dependencies (lit "A") scenario_B None None [] = Some (closure_B, [])
  ∧ iteration_of closure_B [lit "A"; lit "B"]
  ∧ compute_install_order [lit "A"; lit "B"] closure_B scenario_B
    = Some [lit "B"; lit "A"]
  ∧ ¬ order_valid closure_B scenario_B [lit "B"; lit "A"]
  ∧ iteration_of closure_B [lit "B"; lit "A"]
  ∧ compute_install_order [lit "B"; lit "A"] closure_B scenario_B
    = Some [lit "A"; lit "B"]
  ∧ ¬ order_valid closure_B scenario_B [lit "A"; lit "B"].
Proof.
  assert (lit "A" ∈ closure_B) as HA by (unfold closure_B; set_solver).
  assert (lit "B" ∈ closure_B) as HB by (unfold closure_B; set_solver).
  assert (lit "A" ∈ first_alt_deps scenario_B (lit "B")) as HBA
    by (vm_compute; apply list_elem_of_here).
  assert (lit "B" ∈ first_alt_deps scenario_B (lit "A")) as HAB
    by (vm_compute; apply list_elem_of_here).
  split; [vm_compute; reflexivity|].
  split; [apply iteration_of_list, NoDup_A_B|].
  split; [vm_compute; reflexivity|].
  split.
  { intros Hvalid. apply (not_before_pair (lit "B") (lit "A")).
    - intros H. by apply lit_A_B.
    - by apply Hvalid. }
  split.
  { destruct (iteration_of_list _ NoDup_B_A) as [Hnd Hmem]. split; [done|].
    intros x. rewrite Hmem. unfold closure_B. set_solver. }
  split; [vm_compute; reflexivity|].
  intros Hvalid. apply (not_before_pair (lit "A") (lit "B") lit_A_B).
  by apply Hvalid.
Qed.

(** C6. For every closure, index and order of iteration over the closure the
    function returns a sequence that is a permutation of the closure: it has
    no duplicates and its members are those of the closure. *)
Theorem install_order_permutation (iter : list str) (closure : gset str)
    (packages : gmap str (gmap str str)) :
  iteration_of closure iter →
  ∃ ord, compute_install_order iter closure packages = Some ord
         ∧ NoDup ord
         ∧ (∀ x, x ∈ ord ↔ x ∈ closure)
         ∧ ord ≡ₚ elements closure.
Proof.
  intros Hit.
  destruct (compute_install_order_spec closure packages iter Hit)
    as (ord & Hcall & Hnd & Hmem & _).
  exists ord. split; [done|]. split; [done|]. split; [done|].
  apply NoDup_Permutation; [done | apply NoDup_elements|].
  intros x. by rewrite Hmem, elem_of_elements.
Qed.

Lemma install_order_permutation_witness :
  iteration_of closure_A (elements closure_A)
  ∧ ∃ ord, compute_install_order (elements closure_A) closure_A scenario_A
           = Some ord
           ∧ NoDup ord
           ∧ (∀ x, x ∈ ord ↔ x ∈ closure_A)
           ∧ ord ≡ₚ elements closure_A.
Proof.
  split; [apply iteration_of_elements|].
  apply install_order_permutation, iteration_of_elements.
Defined.

(** ** More on strings *)

Section MoreStringFacts.
Implicit Types (s t : str) (c sep : char).
Local Open Scope N_scope.

Lemma lstrip_nil_iff s : lstrip s = [] ↔ ∀ c, c ∈ s → is_space c = true.
Proof.
  induction s as [|a s IH]; simpl.
  - split; [|done]. intros _ c Hc. by apply elem_of_nil in Hc.
  - destruct (is_space a) eqn:E.
    + rewrite IH. split.
      * intros H c [->|Hc]%elem_of_cons; auto.
      * intros H c Hc. apply H. set_solver.
    + split; [done|]. intros H. specialize (H a ltac:(set_solver)). congruence.
Qed.

Lemma lstrip_head_nonspace s c t : lstrip s = c :: t → is_space c = false.
Proof.
  induction s as [|a s IH]; simpl; [done|].
  destruct (is_space a) eqn:E; [done|]. by intros [= <- _].
Qed.

Lemma lstrip_nonspace_head c s : is_space c = false → lstrip (c :: s) = c :: s.
Proof. intros Hc. simpl. by rewrite Hc. Qed.

(** [rstrip] keeps a prefix and drops whitespace only. *)
Lemma rstrip_prefix s : ∃ ws, s = rstrip s ++ ws ∧ ∀ c, c ∈ ws → is_space c = true.
Proof.
  unfold rstrip. remember (reverse s) as r eqn:Hr.
  assert (s = reverse r) as -> by (by rewrite Hr, reverse_involutive).
  clear Hr. induction r as [|a r IH]; simpl.
  - exists []. split; [done|]. intros c Hc. by apply elem_of_nil in Hc.
  - destruct (is_space a) eqn:E.
    + destruct IH as (ws & Hws & Hsp). exists (ws ++ [a]). split.
      * rewrite reverse_cons, app_assoc. by rewrite <- Hws.
      * intros c [Hc | ->%list_elem_of_singleton]%elem_of_app; auto.
    + exists []. split; [by rewrite app_nil_r|].
      intros c Hc. by apply elem_of_nil in Hc.
Qed.

Lemma lstrip_suffix_spaces s :
  ∃ ws, s = ws ++ lstrip s ∧ ∀ c, c ∈ ws → is_space c = true.
Proof.
  induction s as [|a s (ws & Hws & Hsp)]; simpl.
  - exists []. split; [done|]. intros c Hc. by apply elem_of_nil in Hc.
  - destruct (is_space a) eqn:E.
    + exists (a :: ws). split; [simpl; by f_equal|].
      intros c [->|Hc]%elem_of_cons; auto.
    + exists []. split; [done|]. intros c Hc. by apply elem_of_nil in Hc.
Qed.

(** [strip] cuts whitespace off both ends and nothing else. *)
Lemma strip_decompose s :
  ∃ l r, s = l ++ strip s ++ r
         ∧ (∀ c, c ∈ l → is_space c = true)
         ∧ (∀ c, c ∈ r → is_space c = true).
Proof.
  destruct (lstrip_suffix_spaces s) as (l & Hl & Hls).
  destruct (rstrip_prefix (lstrip s)) as (r & Hr & Hrs).
  exists l, r. unfold strip. split; [|done]. by rewrite <- Hr.
Qed.

Lemma strip_subset s c : c ∈ strip s → c ∈ s.
Proof.
  destruct (strip_decompose s) as (l & r & Hs & _). intros Hc.
  rewrite Hs. set_solver.
Qed.

Lemma strip_keeps_nonspace s c : c ∈ s → is_space c = false → c ∈ strip s.
Proof.
  destruct (strip_decompose s) as (l & r & Hs & Hl & Hr). intros Hc Hsp.
  rewrite Hs in Hc. apply elem_of_app in Hc as [Hc|Hc].
  { specialize (Hl _ Hc). congruence. }
  apply elem_of_app in Hc as [Hc|Hc]; [done|].
  specialize (Hr _ Hc). congruence.
Qed.

Lemma strip_head_nonspace s c t : strip s = c :: t → is_space c = false.
Proof.
  unfold strip. intros E.
  destruct (lstrip s) as [|a u] eqn:El; [discriminate E|].
  pose proof (lstrip_head_nonspace _ _ _ El) as Ha.
  change (a :: u) with ([] ++ a :: u) in E.
  rewrite rstrip_app_nonspace in E by done. simpl in E. by injection E as <- _.
Qed.

Lemma strip_nil_iff s : strip s = [] ↔ ∀ c, c ∈ s → is_space c = true.
Proof.
  split.
  - intros Hs c Hc. destruct (is_space c) eqn:E; [done|].
    pose proof (strip_keeps_nonspace s c Hc E) as Hin.
    rewrite Hs in Hin. by apply elem_of_nil in Hin.
  - intros Hall. destruct (strip s) as [|c t] eqn:E; [done|].
    assert (c ∈ strip s) as Hc by (rewrite E; set_solver).
    pose proof (strip_head_nonspace _ _ _ E) as Hsp.
    apply strip_subset in Hc. specialize (Hall _ Hc). congruence.
Qed.

(** Stripping a text that ends in a non-space character, followed by
    anything, keeps that text and strips what follows on the right. *)
Lemma strip_nonspace_prefix s t :
  s ≠ [] → (∀ c, c ∈ s → is_space c = false) →
  strip (s ++ t) = s ++ rstrip t.
Proof.
  intros Hne Hs.
  assert (lstrip (s ++ t) = s ++ t) as Hl.
  { destruct s as [|a s]; [done|]. simpl. by rewrite (Hs a) by set_solver. }
  unfold strip. rewrite Hl.
  destruct (exists_last Hne) as (s1 & z & Hz).
  rewrite Hz, <- !app_assoc. simpl.
  apply rstrip_app_nonspace. apply Hs. rewrite Hz. set_solver.
Qed.

Lemma split_fields_no_sep sep s g : g ∈ split sep s → sep ∉ g.
Proof.
  revert g. induction s as [|c s IH]; intros g; simpl.
  - intros ->%list_elem_of_singleton. apply not_elem_of_nil.
  - destruct (N.eqb_spec c sep) as [->|Hne].
    + intros [->|Hg]%elem_of_cons; [apply not_elem_of_nil | by apply IH].
    + destruct (split sep s) as [|w ws] eqn:E.
      * intros ->%list_elem_of_singleton. set_solver.
      * intros [->|Hg]%elem_of_cons.
        -- assert (sep ∉ w) by (apply IH; set_solver). set_solver.
        -- apply IH. set_solver.
Qed.

Lemma split_fields_subset sep s g c : g ∈ split sep s → c ∈ g → c ∈ s.
Proof.
  revert g. induction s as [|a s IH]; intros g; simpl.
  - by intros ->%list_elem_of_singleton.
  - destruct (N.eqb_spec a sep) as [->|Hne].
    + intros [->|Hg]%elem_of_cons Hc; [by apply elem_of_nil in Hc|].
      apply elem_of_cons. right. by eapply IH.
    + destruct (split sep s) as [|w ws] eqn:E.
      * by destruct (split_nonempty sep s).
      * intros [->|Hg]%elem_of_cons Hc.
        -- apply elem_of_cons in Hc as [->|Hc]; [set_solver|].
           apply elem_of_cons. right. eapply IH; [|done]. set_solver.
        -- apply elem_of_cons. right. eapply IH; [|done]. set_solver.
Qed.

(** Every character other than the separator lands in some field. *)
Lemma split_fields_cover sep s c :
  c ∈ s → c ≠ sep → ∃ g, g ∈ split sep s ∧ c ∈ g.
Proof.
  induction s as [|a s IH]; intros Hc Hne; [by apply elem_of_nil in Hc|].
  simpl. destruct (N.eqb_spec a sep) as [->|Ha].
  - apply elem_of_cons in Hc as [->|Hc]; [done|].
    destruct (IH Hc Hne) as (g & Hg & Hcg). exists g. set_solver.
  - destruct (split sep s) as [|w ws] eqn:E.
    { by destruct (split_nonempty sep s). }
    apply elem_of_cons in Hc as [->|Hc].
    + exists (a :: w). set_solver.
    + destruct (IH Hc Hne) as (g & [->|Hg]%elem_of_cons & Hcg).
      * exists (a :: w). set_solver.
      * exists g. set_solver.
Qed.

Lemma first_field_in_split sep s : first_field sep s ∈ split sep s.
Proof.
  unfold first_field. destruct (split sep s) as [|w ws] eqn:E.
  - by destruct (split_nonempty sep s).
  - set_solver.
Qed.

Lemma first_field_no_sep sep s : sep ∉ first_field sep s.
Proof. eapply split_fields_no_sep, first_field_in_split. Qed.

Lemma first_field_subset sep s c : c ∈ first_field sep s → c ∈ s.
Proof. eapply split_fields_subset, first_field_in_split. Qed.

Lemma first_field_cons_ne sep c s :
  c ≠ sep → first_field sep (c :: s) = c :: first_field sep s.
Proof.
  intros Hne. unfold first_field. simpl.
  destruct (N.eqb_spec c sep) as [?|_]; [done|].
  destruct (split sep s) as [|w ws] eqn:E; [|done].
  by destruct (split_nonempty sep s).
Qed.

Lemma first_field_cons_eq sep s : first_field sep (sep :: s) = [].
Proof. unfold first_field. simpl. by rewrite N.eqb_refl. Qed.

Lemma first_field_app_no_sep sep s t :
  sep ∉ s → first_field sep (s ++ t) = s ++ first_field sep t.
Proof.
  induction s as [|c s IH]; intros Hs; simpl; [done|].
  rewrite first_field_cons_ne by set_solver. f_equal. apply IH. set_solver.
Qed.
End MoreStringFacts.

(** ** More on parse_dependencies *)

Lemma elem_of_flat_map {A B} (f : A → list B) (l : list A) (y : B) :
  y ∈ flat_map f l ↔ ∃ x, x ∈ l ∧ y ∈ f x.
Proof.
  rewrite list_elem_of_In, in_flat_map. split.
  - intros (x & ? & ?). exists x. by rewrite !list_elem_of_In.
  - intros (x & ? & ?). exists x. by rewrite <- !list_elem_of_In.
Qed.

Lemma parse_group_name (g name : str) :
  name ∈ parse_group g →
  strip g ≠ []
  ∧ name = first_field SPACE (strip (first_field PIPE (strip g))).
Proof.
  unfold parse_group. destruct (strip g) as [|a r] eqn:E.
  - intros H. by apply elem_of_nil in H.
  - intros ->%list_elem_of_singleton. done.
Qed.

Lemma parse_group_nil_iff (g : str) :
  parse_group g = [] ↔ ∀ c, c ∈ g → is_space c = true.
Proof.
  rewrite <- strip_nil_iff. unfold parse_group.
  destruct (strip g) as [|a r]; split; done.
Qed.

(** X1. Parsing distributes over a comma: the names of [s,t] are those of
    [s] followed by those of [t]. *)
Theorem parse_dependencies_comma (s t : str) :
  parse_dependencies (s ++ COMMA :: t)
  = parse_dependencies s ++ parse_dependencies t.
Proof. unfold parse_dependencies. by rewrite split_app, flat_map_app. Qed.

(** X2. A name returned by [parse_dependencies] holds no space, no comma and
    no bar, and does not begin with a whitespace character. *)
Theorem parse_dependencies_names_clean (dep_str name : str) :
  name ∈ parse_dependencies dep_str →
  (SPACE ∉ name) ∧ (COMMA ∉ name) ∧ (PIPE ∉ name)
  ∧ ∀ c rest, name = c :: rest → is_space c = false.
Proof.
  unfold parse_dependencies. rewrite elem_of_flat_map.
  intros (g & Hg & Hname).
  apply parse_group_name in Hname as [_ ->].
  split; [apply first_field_no_sep|]. split; [|split].
  - intros Hc. apply first_field_subset, strip_subset, first_field_subset,
      strip_subset in Hc.
    by apply (split_fields_no_sep COMMA dep_str g).
  - intros Hc. apply first_field_subset, strip_subset in Hc.
    by apply (first_field_no_sep PIPE (strip g)).
  - intros c rest Hname.
    destruct (strip (first_field PIPE (strip g))) as [|a u] eqn:E.
    { discriminate Hname. }
    pose proof (strip_head_nonspace _ _ _ E) as Ha.
    rewrite first_field_cons_ne in Hname by (intros ->; discriminate Ha).
    by injection Hname as <- _.
Qed.

Lemma parse_dependencies_names_clean_witness :
  lit "libgcc1" ∈ parse_dependencies (lit "libc6 (>= 2.29), libgcc1 | libgcc-s1")
  ∧ (SPACE ∉ lit "libgcc1") ∧ (COMMA ∉ lit "libgcc1")
  ∧ (PIPE ∉ lit "libgcc1").
Proof.
  assert (lit "libgcc1"
          ∈ parse_dependencies (lit "libc6 (>= 2.29), libgcc1 | libgcc-s1"))
    as Hin by (vm_compute; apply list_elem_of_further, list_elem_of_here).
  split; [exact Hin|].
  destruct (parse_dependencies_names_clean _ _ Hin) as (H1 & H2 & H3 & _).
  split; [exact H1|]. split; [exact H2 | exact H3].
Defined.

(** X3. [parse_dependencies] returns the empty list exactly for the texts
    made of whitespace and commas only (the empty text among them): blank
    groups are skipped, any other group yields a name. *)
Theorem parse_dependencies_nil_iff (dep_str : str) :
  parse_dependencies dep_str = []
  ↔ ∀ c, c ∈ dep_str → is_space c = true ∨ c = COMMA.
Proof.
  unfold parse_dependencies. split.
  - intros Hnil c Hc.
    destruct (is_space c) eqn:Hsp; [by left|]. right.
    destruct (decide (c = COMMA)) as [|Hne]; [done|]. exfalso.
    destruct (split_fields_cover COMMA dep_str c Hc Hne) as (g & Hg & Hcg).
    assert (parse_group g = []) as Hgn.
    { destruct (parse_group g) as [|n ns] eqn:E; [done|].
      assert (n ∈ flat_map parse_group (split COMMA dep_str)) as Hn.
      { rewrite elem_of_flat_map. exists g. rewrite E.
        split; [done | set_solver]. }
      rewrite Hnil in Hn. by apply elem_of_nil in Hn. }
    rewrite parse_group_nil_iff in Hgn. specialize (Hgn c Hcg). congruence.
  - intros Hall.
    destruct (flat_map parse_group (split COMMA dep_str)) as [|n ns] eqn:E;
      [done|].
    assert (n ∈ flat_map parse_group (split COMMA dep_str)) as Hn
      by (rewrite E; set_solver).
    rewrite elem_of_flat_map in Hn. destruct Hn as (g & Hg & Hng).
    assert (parse_group g = []) as Hgn.
    { apply parse_group_nil_iff. intros c Hc.
      destruct (Hall c) as [?| ->]; [by eapply split_fields_subset | done |].
      by destruct (split_fields_no_sep COMMA dep_str g Hg). }
    rewrite Hgn in Hng. by apply elem_of_nil in Hng.
Qed.

(** X4. Qualifiers are dropped: a name without whitespace, comma or bar,
    followed by a space and any text without a comma (a version constraint,
    further alternatives), parses to that name alone. *)
Theorem parse_dependencies_qualified (name rest : str) :
  name ≠ [] →
  (∀ c, c ∈ name → is_space c = false) →
  COMMA ∉ name → PIPE ∉ name → COMMA ∉ rest →
  parse_dependencies (name ++ SPACE :: rest) = [name].
Proof.
  intros Hne Hsp Hcomma Hpipe Hrest.
  assert (SPACE ∉ name) as Hspace.
  { intros Hin. specialize (Hsp _ Hin). discriminate Hsp. }
  assert (∀ t, ∃ u, rstrip (SPACE :: t) = [] ∨ rstrip (SPACE :: t) = SPACE :: u)
    as Hrs.
  { intros t. destruct (rstrip_prefix (SPACE :: t)) as (ws & Hws & _).
    destruct (rstrip (SPACE :: t)) as [|a u]; [by exists []; left|].
    exists u. right. by injection Hws as <- _. }
  unfold parse_dependencies. rewrite split_no_sep.
  2:{ rewrite elem_of_app, elem_of_cons. intros [?|[?|?]]; done. }
  simpl. rewrite app_nil_r. unfold parse_group.
  rewrite strip_nonspace_prefix by done.
  destruct (name ++ rstrip (SPACE :: rest)) as [|a r] eqn:E.
  { by destruct name. }
  rewrite <- E. clear E a r.
  rewrite first_field_app_no_sep by done.
  assert (∃ w, first_field PIPE (rstrip (SPACE :: rest)) = w
               ∧ (w = [] ∨ ∃ u, w = SPACE :: u)) as (w & -> & Hw).
  { destruct (Hrs rest) as [u [-> | ->]].
    - exists []. split; [done | by left].
    - rewrite first_field_cons_ne by done. eexists. split; [done|]. eauto. }
  rewrite strip_nonspace_prefix by done.
  rewrite first_field_app_no_sep by done.
  destruct Hw as [-> | [u ->]].
  - change (rstrip []) with (@nil N). by rewrite app_nil_r.
  - destruct (Hrs u) as [u' [-> | ->]].
    + by rewrite app_nil_r.
    + by rewrite first_field_cons_eq, app_nil_r.
Qed.

Lemma parse_dependencies_qualified_witness :
  lit "libc6" ≠ []
  ∧ (COMMA ∉ lit "libc6") ∧ (PIPE ∉ lit "libc6")
  ∧ (COMMA ∉ lit "(>= 2.29) | libc")
  ∧ parse_dependencies (lit "libc6 (>= 2.29) | libc") = [lit "libc6"].
Proof.
  assert (∀ c, c ∈ lit "libc6" → is_space c = false) as Hsp.
  { intros c Hc. apply list_elem_of_In in Hc. vm_compute in Hc.
    repeat (destruct Hc as [<-|Hc]; [reflexivity|]). destruct Hc. }
  assert (∀ (x : N) l, Forall (λ y, y ≠ x) l → x ∉ l) as Hnot.
  { intros x l Hl Hin. rewrite Forall_forall in Hl. by apply (Hl x). }
  assert (lit "libc6" ≠ []) as H0 by (intros H; discriminate H).
  assert (COMMA ∉ lit "libc6") as H1
    by (apply Hnot; vm_compute; repeat constructor; intros H; discriminate H).
  assert (PIPE ∉ lit "libc6") as H2
    by (apply Hnot; vm_compute; repeat constructor; intros H; discriminate H).
  assert (COMMA ∉ lit "(>= 2.29) | libc") as H3
    by (apply Hnot; vm_compute; repeat constructor; intros H; discriminate H).
  split; [exact H0|]. split; [exact H1|]. split; [exact H2|]. split; [exact H3|].
  exact (parse_dependencies_qualified (lit "libc6") (lit "(>= 2.29) | libc")
           H0 Hsp H1 H2 H3).
Defined.

(** ** parse_packages_file *)

Lemma sample_content_parsed :
  parse_packages_file sample_content = Some sample_index.
Proof. vm_compute. reflexivity. Qed.

Section MoreForEach.
Context {St A : Type}.

Lemma for_each_invariant (body : A → St → option St) (I : St → Prop) l st st' :
  for_each body l st = Some st' →
  I st →
  (∀ x s s', x ∈ l → I s → body x s = Some s' → I s') →
  I st'.
Proof.
  revert st. induction l as [|x l IH]; intros st; simpl.
  - by intros [= <-].
  - destruct (body x st) as [s1|] eqn:E; [|done].
    intros Hl Hst Hbody. apply (IH s1); [done | |].
    + eapply Hbody; [|done..]. set_solver.
    + intros y s s' Hy. apply Hbody. set_solver.
Qed.
End MoreForEach.

Section SplitFacts.
Implicit Types (s t : str) (c sep : char).

Lemma rstrip_idemp s : rstrip (rstrip s) = rstrip s.
Proof. unfold rstrip. by rewrite reverse_involutive, lstrip_idemp. Qed.

Lemma strip_idemp s : strip (strip s) = strip s.
Proof.
  destruct (strip s) as [|c t] eqn:E; [done|].
  pose proof (strip_head_nonspace _ _ _ E) as Hc.
  unfold strip at 1. rewrite lstrip_nonspace_head by done.
  rewrite <- E. unfold strip. apply rstrip_idemp.
Qed.

Lemma split_once_spec sep s :
  contains sep s = true →
  s = (split_once sep s).1 ++ sep :: (split_once sep s).2
  ∧ sep ∉ (split_once sep s).1.
Proof.
  induction s as [|c s IH]; simpl; [done|].
  destruct (N.eqb_spec sep c) as [<-|Hne]; simpl.
  - intros _. rewrite N.eqb_refl. simpl. split; [done | apply not_elem_of_nil].
  - intros Hs. destruct (N.eqb_spec c sep) as [?|_]; [done|].
    destruct (IH Hs) as [Heq Hnot].
    destruct (split_once sep s) as [k v]. simpl in *.
    split; [by f_equal | set_solver].
Qed.

Lemma split_once_app sep k v :
  sep ∉ k → split_once sep (k ++ sep :: v) = (k, v).
Proof.
  induction k as [|c k IH]; intros Hk; simpl.
  - by rewrite N.eqb_refl.
  - destruct (N.eqb_spec c sep) as [?|_]; [set_solver|].
    rewrite IH by set_solver. done.
Qed.

Lemma contains_app sep k v : contains sep (k ++ sep :: v) = true.
Proof.
  unfold contains. rewrite existsb_app. simpl. rewrite N.eqb_refl.
  by rewrite orb_true_r.
Qed.

Lemma split_blank_line_nonempty s : split_blank_line s ≠ [].
Proof.
  destruct s as [|c [|c' s]]; simpl; [done..|]. repeat case_match; done.
Qed.

Lemma split_blank_line_pair s :
  split_blank_line (LF :: LF :: s) = [] :: split_blank_line s.
Proof. done. Qed.

Lemma split_blank_line_cons c s :
  ¬ (c = LF ∧ head s = Some LF) →
  split_blank_line (c :: s) = cons_first c (split_blank_line s).
Proof.
  intros Hne. destruct s as [|c' s]; [done|].
  change (split_blank_line (c :: c' :: s))
    with (if ((c =? LF) && (c' =? LF))%N then [] :: split_blank_line s
          else cons_first c (split_blank_line (c' :: s))).
  destruct (N.eqb_spec c LF) as [->|?]; [|done].
  destruct (N.eqb_spec c' LF) as [->|?]; [|done].
  destruct Hne. done.
Qed.

Lemma cons_first_app c (l l' : list str) :
  l ≠ [] → cons_first c (l ++ l') = cons_first c l ++ l'.
Proof. by destruct l. Qed.

(** Joining two texts with a blank line joins their entries, when the first
    text does not end in a line feed. *)
Lemma split_blank_line_app s t :
  last s ≠ Some LF →
  split_blank_line (s ++ LF :: LF :: t)
  = split_blank_line s ++ split_blank_line t.
Proof.
  assert ((last s ≠ Some LF →
           split_blank_line (s ++ LF :: LF :: t)
           = split_blank_line s ++ split_blank_line t)
          ∧ ∀ c, last (c :: s) ≠ Some LF →
                 split_blank_line ((c :: s) ++ LF :: LF :: t)
                 = split_blank_line (c :: s) ++ split_blank_line t) as [H _];
    [|exact H].
  induction s as [|c0 s [IH1 IH2]].
  - split; [done|]. intros c Hc. simpl in Hc.
    assert (c ≠ LF) by congruence.
    change (([c] ++ LF :: LF :: t)) with (c :: LF :: LF :: t).
    rewrite split_blank_line_cons by (intros [? _]; done).
    rewrite split_blank_line_pair. done.
  - split; [exact (IH2 c0)|].
    intros c Hc. rewrite last_cons_cons in Hc.
    destruct (decide (c = LF ∧ c0 = LF)) as [[-> ->]|Hne].
    + change ((LF :: LF :: s) ++ LF :: LF :: t)
        with (LF :: LF :: (s ++ LF :: LF :: t)).
      rewrite !split_blank_line_pair, IH1; [done|].
      destruct s as [|? ?]; [done|]. by rewrite last_cons_cons in Hc.
    + change ((c :: c0 :: s) ++ LF :: LF :: t)
        with (c :: ((c0 :: s) ++ LF :: LF :: t)).
      rewrite split_blank_line_cons.
      2:{ simpl. intros [-> [= ->]]. by apply Hne. }
      rewrite (split_blank_line_cons c (c0 :: s)).
      2:{ simpl. intros [-> [= ->]]. by apply Hne. }
      rewrite IH2 by done.
      apply cons_first_app, split_blank_line_nonempty.
Qed.

Lemma split_blank_line_subset s g c :
  g ∈ split_blank_line s → c ∈ g → c ∈ s.
Proof.
  assert ((∀ g, g ∈ split_blank_line s → c ∈ g → c ∈ s)
          ∧ ∀ a g, g ∈ split_blank_line (a :: s) → c ∈ g → c ∈ a :: s)
    as [H _]; [|apply H].
  induction s as [|c0 s [IH1 IH2]].
  - split.
    + intros g' ->%list_elem_of_singleton Hc. done.
    + intros a g' ->%list_elem_of_singleton Hc. done.
  - split; [exact (IH2 c0)|].
    intros a g' Hg Hc.
    destruct (decide (a = LF ∧ c0 = LF)) as [[-> ->]|Hne].
    + rewrite split_blank_line_pair in Hg.
      apply elem_of_cons in Hg as [->|Hg]; [by apply elem_of_nil in Hc|].
      specialize (IH1 _ Hg Hc). set_solver.
    + rewrite split_blank_line_cons in Hg.
      2:{ simpl. intros [-> [= ->]]. by apply Hne. }
      destruct (split_blank_line (c0 :: s)) as [|w ws] eqn:E.
      { by destruct (split_blank_line_nonempty (c0 :: s)). }
      simpl in Hg. apply elem_of_cons in Hg as [->|Hg].
      * apply elem_of_cons in Hc as [->|Hc]; [set_solver|].
        apply elem_of_cons. right.
        apply (IH2 c0 w); [rewrite E; apply list_elem_of_here | done].
      * apply elem_of_cons. right.
        apply (IH2 c0 g'); [rewrite E; by apply list_elem_of_further | done].
Qed.
End SplitFacts.

Lemma entry_start_ok : entry_ok entry_start.
Proof.
  split; [apply entry_start_key_bound|].
  intros field [v Hv]. simpl in Hv. by rewrite lookup_empty in Hv.
Qed.

Lemma parse_line_entry_ok st line :
  entry_ok st → ∃ st', parse_line st line = Some st' ∧ entry_ok st'.
Proof.
  intros [Hkey Hfields].
  destruct (parse_line_key_bound st line Hkey) as (st' & Hst' & Hkey').
  exists st'. split; [done|]. split; [done|].
  revert Hst'. unfold parse_line.
  destruct (startswith_space line).
  - destruct (key st) as [[|c k]|] eqn:Hk; try (by intros [= <-]).
    destruct (pkg_info st !! (c :: k)) as [v|] eqn:Hv; [|done].
    intros [= <-]. simpl. intros field [w Hw].
    apply Hfields. destruct (decide (c :: k = field)) as [<-|Hne]; [by eauto|].
    rewrite lookup_insert_ne in Hw by done. by eauto.
  - destruct (contains COLON line) eqn:Hcol; [|by intros [= <-]].
    destruct (split_once_spec COLON line Hcol) as [_ Hnot].
    destruct (split_once COLON line) as [k value]. simpl in Hnot.
    intros [= <-]. simpl. intros field [w Hw].
    destruct (decide (strip k = field)) as [<-|Hne].
    + split; [apply strip_idemp|]. intros Hin. by apply strip_subset in Hin.
    + rewrite lookup_insert_ne in Hw by done. apply Hfields. by eauto.
Qed.

Lemma parse_lines_entry_ok lines st :
  entry_ok st → ∃ st', parse_lines st lines = Some st' ∧ entry_ok st'.
Proof.
  revert st. induction lines as [|line rest IH]; intros st Hst; simpl.
  - by eauto.
  - destruct (parse_line_entry_ok st line Hst) as (st1 & -> & Hst1). by apply IH.
Qed.

Lemma parse_entry_fields lines info field :
  parse_entry lines = Some info → is_Some (info !! field) →
  strip field = field ∧ COLON ∉ field.
Proof.
  unfold parse_entry.
  destruct (parse_lines_entry_ok lines _ entry_start_ok) as (st & -> & _ & Hf).
  intros [= <-]. apply Hf.
Qed.

Lemma add_entry_total (entry : str) (packages : gmap str (gmap str str)) : is_Some (add_entry entry packages).
Proof.
  unfold add_entry. destruct (strip entry); [by eexists|].
  destruct (parse_entry_total (splitlines entry)) as [info ->].
  destruct (info !! PACKAGE); by eexists.
Qed.

Lemma add_entry_index_ok (entries : list str) (entry : str)
    (packages packages' : gmap str (gmap str str)) :
  entry ∈ entries → index_ok entries packages →
  add_entry entry packages = Some packages' → index_ok entries packages'.
Proof.
  intros Hin Hok. unfold add_entry.
  destruct (strip entry); [by intros [= <-]|].
  destruct (parse_entry (splitlines entry)) as [info|] eqn:Hinfo; [|done].
  destruct (info !! PACKAGE) as [name|] eqn:Hname; [|by intros [= <-]].
  intros [= <-] name' info' Hlook.
  destruct (decide (name = name')) as [<-|Hne].
  - rewrite lookup_insert_eq in Hlook. injection Hlook as <-.
    split; [done|]. by exists entry.
  - rewrite lookup_insert_ne in Hlook by done. by apply Hok.
Qed.

Lemma parse_packages_file_index_ok (content : str)
    (packages : gmap str (gmap str str)) :
  parse_packages_file content = Some packages →
  index_ok (split_blank_line content) packages.
Proof.
  intros Hparse.
  apply (for_each_invariant add_entry (index_ok (split_blank_line content))
           _ _ _ Hparse).
  - intros name info Hlook. by rewrite lookup_empty in Hlook.
  - intros entry s s' Hin Hs Hadd. by eapply add_entry_index_ok.
Qed.

Lemma add_entry_union (entry : str) (m0 m : gmap str (gmap str str)) :
  add_entry entry (m0 ∪ m) = (λ e, e ∪ m) <$> add_entry entry m0.
Proof.
  unfold add_entry. destruct (strip entry); [done|].
  destruct (parse_entry (splitlines entry)) as [info|]; [|done].
  destruct (info !! PACKAGE) as [name|]; [|done].
  simpl. by rewrite insert_union_l.
Qed.

Lemma for_each_add_entry_union (entries : list str) (m0 m : gmap str (gmap str str)) :
  for_each add_entry entries (m0 ∪ m)
  = (λ e, e ∪ m) <$> for_each add_entry entries m0.
Proof.
  revert m0. induction entries as [|entry rest IH]; intros m0; simpl; [done|].
  rewrite add_entry_union.
  destruct (add_entry entry m0) as [m1|]; simpl; [apply IH | done].
Qed.

(** X5. [parse_packages_file] raises on no text: the [KeyError] that
    [pkg_info[key] += ...] could raise never occurs, since [key] always names
    a field set before. *)
Theorem parse_packages_file_total (content : str) :
  is_Some (parse_packages_file content).
Proof.
  unfold parse_packages_file.
  destruct (for_each_total add_entry (λ _, True) (split_blank_line content) ∅ I)
    as (packages & -> & _); [|by eexists].
  intros entry s _ _. destruct (add_entry_total entry s) as [s' ->]. by eauto.
Qed.

(** X6. Every record of the index returned is stored under the value of its
    own [Package] field. *)
Theorem index_key_is_package_field (content : str)
    (packages : gmap str (gmap str str)) (name : str) (info : gmap str str) :
  parse_packages_file content = Some packages →
  packages !! name = Some info →
  info !! PACKAGE = Some name.
Proof.
  intros Hparse Hlook.
  by destruct (parse_packages_file_index_ok _ _ Hparse _ _ Hlook).
Qed.

Lemma index_key_is_package_field_witness :
  parse_packages_file sample_content = Some sample_index
  ∧ sample_index !! lit "b" = Some sample_b
  ∧ sample_b !! PACKAGE = Some (lit "b").
Proof.
  assert (sample_index !! lit "b" = Some sample_b) as Hlook
    by (vm_compute; reflexivity).
  split; [exact sample_content_parsed|]. split; [exact Hlook|].
  exact (index_key_is_package_field _ _ _ _ sample_content_parsed Hlook).
Defined.

(** X7. In every record of the index returned, a field name has no
    whitespace at either end and holds no colon. *)
Theorem index_field_names_clean (content : str)
    (packages : gmap str (gmap str str)) (name : str) (info : gmap str str)
    (field : str) :
  parse_packages_file content = Some packages →
  packages !! name = Some info →
  is_Some (info !! field) →
  strip field = field ∧ COLON ∉ field.
Proof.
  intros Hparse Hlook Hfield.
  destruct (parse_packages_file_index_ok _ _ Hparse _ _ Hlook)
    as (_ & entry & _ & Hentry).
  by eapply parse_entry_fields.
Qed.

Lemma index_field_names_clean_witness :
  parse_packages_file sample_content = Some sample_index
  ∧ sample_index !! lit "b" = Some sample_b
  ∧ is_Some (sample_b !! lit "Description")
  ∧ strip (lit "Description") = lit "Description"
  ∧ (COLON ∉ lit "Description").
Proof.
  assert (sample_index !! lit "b" = Some sample_b) as Hlook
    by (vm_compute; reflexivity).
  assert (is_Some (sample_b !! lit "Description")) as Hfield
    by (exists (lit "short long text"); vm_compute; reflexivity).
  split; [exact sample_content_parsed|]. split; [exact Hlook|].
  split; [exact Hfield|].
  exact (index_field_names_clean _ _ _ _ _ sample_content_parsed Hlook Hfield).
Defined.

(** X8. Last record wins across texts: for a text [a] that does not end in a
    line feed, parsing [a], a blank line and [b] gives the index of [b] laid
    over the index of [a] (a name declared in both keeps the record of
    [b]). *)
Theorem parse_packages_file_app (a b : str) :
  last a ≠ Some LF →
  ∃ pa pb,
    parse_packages_file a = Some pa
    ∧ parse_packages_file b = Some pb
    ∧ parse_packages_file (a ++ LF :: LF :: b) = Some (pb ∪ pa).
Proof.
  intros Ha.
  destruct (parse_packages_file_total a) as [pa Hpa].
  destruct (parse_packages_file_total b) as [pb Hpb].
  exists pa, pb. split; [done|]. split; [done|].
  unfold parse_packages_file in *.
  rewrite split_blank_line_app, for_each_app, Hpa by done.
  rewrite <- (left_id_L ∅ (∪) pa) at 1.
  by rewrite for_each_add_entry_union, Hpb.
Qed.

Lemma parse_packages_file_app_witness :
  last first_record ≠ Some LF
  ∧ parse_packages_file first_record = Some first_index
  ∧ parse_packages_file second_record = Some second_index
  ∧ parse_packages_file (first_record ++ LF :: LF :: second_record)
    = Some second_index.
Proof.
  assert (last first_record ≠ Some LF) as Hlast
    by (intros H; discriminate H).
  assert (parse_packages_file first_record = Some first_index) as H1
    by (vm_compute; reflexivity).
  assert (parse_packages_file second_record = Some second_index) as H2
    by (vm_compute; reflexivity).
  assert (second_index ∪ first_index = second_index) as Hu
    by (vm_compute; reflexivity).
  split; [exact Hlast|]. split; [exact H1|]. split; [exact H2|].
  destruct (parse_packages_file_app first_record second_record Hlast)
    as (pa & pb & Hpa & Hpb & ->).
  rewrite H1 in Hpa. rewrite H2 in Hpb.
  injection Hpa as <-. injection Hpb as <-. by rewrite Hu.
Defined.

(** X9. A text made of whitespace only (the empty text among them) gives the
    empty index. *)
Theorem parse_packages_file_blank (content : str) :
  (∀ c, c ∈ content → is_space c = true) →
  parse_packages_file content = Some ∅.
Proof.
  intros Hblank. unfold parse_packages_file.
  destruct (for_each_total add_entry (λ s, s = ∅) (split_blank_line content) ∅)
    as (packages & -> & ->); [done | | done].
  intros entry s Hin ->. exists ∅. split; [|done].
  unfold add_entry.
  assert (strip entry = []) as ->; [|done].
  apply strip_nil_iff. intros c Hc. apply Hblank.
  by eapply split_blank_line_subset.
Qed.

Lemma parse_packages_file_blank_witness :
  parse_packages_file (LF :: LF :: lit "  " ++ [LF; TAB; LF]) = Some ∅.
Proof.
  apply parse_packages_file_blank. intros c Hc.
  apply list_elem_of_In in Hc. vm_compute in Hc.
  repeat (destruct Hc as [<-|Hc]; [reflexivity|]). destruct Hc.
Defined.

(** X10. A line that does not start with a space is cut at its first colon:
    the stripped text before it names the field, the stripped text after it,
    further colons included, becomes the value, and the field becomes the
    current key. *)
Theorem key_line_first_colon (st : EntryState) (k v : str) :
  COLON ∉ k →
  startswith_space (k ++ COLON :: v) = false →
  parse_line st (k ++ COLON :: v)
  = Some (mkEntry (<[strip k := strip v]> (pkg_info st)) (Some (strip k))).
Proof.
  intros Hk Hsp. unfold parse_line.
  by rewrite Hsp, contains_app, split_once_app.
Qed.

Lemma key_line_first_colon_witness :
  (COLON ∉ lit "Homepage")
  ∧ parse_line entry_start (lit "Homepage: http://example.org:80/")
    = Some (mkEntry {[lit "Homepage" := lit "http://example.org:80/"]}
                    (Some (lit "Homepage"))).
Proof.
  assert (COLON ∉ lit "Homepage") as Hk.
  { intros Hin. apply list_elem_of_In in Hin. vm_compute in Hin.
    repeat (destruct Hin as [Hin|Hin]; [discriminate Hin|]). destruct Hin. }
  split; [exact Hk|].
  change (lit "Homepage: http://example.org:80/")
    with (lit "Homepage" ++ COLON :: lit " http://example.org:80/").
  rewrite (key_line_first_colon entry_start (lit "Homepage")
             (lit " http://example.org:80/") Hk eq_refl).
  vm_compute. reflexivity.
Defined.

(** X11. Continuation lines accumulate: after a key line, a run of lines
    that each start with a space extends the value of the key by a space and
    the stripped text of each line, in order, and changes nothing else. *)
Theorem continuation_lines_accumulate (st : EntryState) (k v : str)
    (conts : list str) :
  key st = Some k → k ≠ [] → pkg_info st !! k = Some v →
  (∀ line, line ∈ conts → startswith_space line = true) →
  parse_lines st conts
  = Some (mkEntry
            (<[k := v ++ flat_map (λ line, SPACE :: strip line) conts]>
               (pkg_info st))
            (Some k)).
Proof.
  revert st v. induction conts as [|line rest IH]; intros st v Hk Hne Hv Hall.
  - simpl. rewrite app_nil_r, insert_id by done. destruct st. simpl in *.
    by subst.
  - simpl. unfold parse_line at 1. rewrite Hall by set_solver. rewrite Hk.
    destruct k as [|c k]; [done|]. rewrite Hv.
    rewrite (IH _ (v ++ SPACE :: strip line)); simpl.
    + by rewrite insert_insert_eq, <- app_assoc.
    + done.
    + done.
    + by rewrite lookup_insert_eq.
    + intros l Hl. apply Hall. set_solver.
Qed.

Lemma continuation_lines_accumulate_witness :
  parse_lines description_state [lit " one"; lit "  two "]
  = Some (mkEntry {[lit "Description" := lit "short one two"]}
                  (Some (lit "Description"))).
Proof.
  rewrite (continuation_lines_accumulate description_state
             (lit "Description") (lit "short")).
  - vm_compute. reflexivity.
  - reflexivity.
  - intros H. discriminate H.
  - vm_compute. reflexivity.
  - intros line Hin. apply list_elem_of_In in Hin.
    destruct Hin as [<-|[<-|[]]]; reflexivity.
Defined.

(** ** More on resolve_dependencies *)

Section MoreResolve.
Context (packages : gmap str (gmap str str)).
Implicit Types (name root : str) (st : RState).

(** A call with any arguments returns, and is a run from the sets given. *)
Lemma resolve_dependencies_run_args root (r0 s0 : option (gset str)) stdout :
  ∃ st, resolve_dependencies root packages r0 s0 stdout
        = Some (resolved st, out st)
        ∧ run packages [root] (mkR (default ∅ r0) (default ∅ s0) stdout) st.
Proof.
  destruct (resolve_rec_total packages (resolve_fuel packages) root
              (mkR (default ∅ r0) (default ∅ s0) stdout)) as [st Hst].
  { unfold resolve_fuel, unseen. rewrite <- size_dom.
    apply Nat.lt_succ_r, subseteq_size. set_solver. }
  exists st. split; [|by eapply resolve_rec_run].
  unfold resolve_dependencies. by rewrite Hst.
Qed.

(** A run adds names of the index only. *)
Lemma run_new_in_index l st st' :
  run packages l st st' →
  ∀ x, x ∈ resolved st' → x ∈ resolved st ∨ x ∈ dom packages.
Proof.
  induction 1 as [st|name rest st st' Hr Hrun IH|name rest st st' Hr Hs Hrun IH
                 |name rest st st' Hr Hs Hp Hrun IH
                 |name rest st st1 st' Hr Hs Hp Hrun1 IH1 Hrun2 IH2];
    intros x Hx; auto.
  destruct (IH2 x Hx) as [Hx2|?]; [|by right].
  simpl in Hx2. apply elem_of_union in Hx2 as [->%elem_of_singleton|Hx2].
  - right. by apply elem_of_dom.
  - apply (IH1 x Hx2).
Qed.

(** The warnings of a run: one for each name, absent from the index and not
    seen before, that the run is called on. *)
Lemma run_warnings l st st' :
  run packages l st st' →
  ∃ ws,
    out st' = out st ++ map warning ws
    ∧ NoDup ws
    ∧ (∀ w, w ∈ ws → (w ∉ dom packages) ∧ (w ∉ seen st) ∧ w ∈ seen st')
    ∧ (∀ w, w ∈ ws →
            w ∈ l ∨ ∃ p, p ∈ resolved st' ∧ (p ∉ resolved st)
                         ∧ dep_edge packages p w)
    ∧ (∀ x, x ∈ seen st' → x ∉ dom packages → x ∈ seen st ∨ x ∈ ws)
    ∧ (∀ x, x ∈ l → x ∉ dom packages →
            x ∈ resolved st ∨ x ∈ seen st ∨ x ∈ ws)
    ∧ (∀ p w, p ∈ resolved st' → p ∉ resolved st → dep_edge packages p w →
              w ∉ dom packages →
              w ∈ resolved st ∨ w ∈ seen st ∨ w ∈ ws).
Proof.
  induction 1 as [st|name rest st st' Hr Hrun IH|name rest st st' Hr Hs Hrun IH
                 |name rest st st' Hr Hs Hp Hrun IH
                 |name rest st st1 st' Hr Hs Hp Hrun1 IH1 Hrun2 IH2].
  - exists []. simpl. rewrite app_nil_r.
    split; [done|]. split; [constructor|].
    repeat split; try (intros; set_solver).
  - destruct IH as (ws & Hout & Hnd & Hw & Hcalled & Hseen & Hl & Hdeps).
    exists ws. split; [done|]. split; [done|]. split; [done|]. split; [|split; [done|split; [|done]]].
    + intros w Hin. destruct (Hcalled w Hin) as [?|?]; [left; set_solver | by right].
    + intros x [->|Hx]%elem_of_cons Hd; [by left | by apply Hl].
  - destruct IH as (ws & Hout & Hnd & Hw & Hcalled & Hseen & Hl & Hdeps).
    exists ws. split; [done|]. split; [done|]. split; [done|]. split; [|split; [done|split; [|done]]].
    + intros w Hin. destruct (Hcalled w Hin) as [?|?]; [left; set_solver | by right].
    + intros x [->|Hx]%elem_of_cons Hd; [by right; left | by apply Hl].
  - destruct IH as (ws & Hout & Hnd & Hw & Hcalled & Hseen & Hl & Hdeps).
    simpl in *.
    assert (name ∉ dom packages) as Hnd0 by by apply not_elem_of_dom.
    assert (name ∉ ws) as Hnew.
    { intros Hin. destruct (Hw _ Hin) as (_ & Hns & _). set_solver. }
    exists (name :: ws). split; [by rewrite Hout, <- app_assoc|].
    split; [by apply NoDup_cons|]. split; [|split; [|split; [|split]]].
    + intros w [->|Hin]%elem_of_cons.
      * split; [done|]. split; [done|].
        apply run_mono in Hrun as [_ Hsub]. apply Hsub. simpl. set_solver.
      * destruct (Hw _ Hin) as (? & ? & ?). split; [done|]. split; [set_solver|done].
    + intros w [->|Hin]%elem_of_cons; [left; set_solver|].
      destruct (Hcalled w Hin) as [?|?]; [left; set_solver | by right].
    + intros x Hx Hd. destruct (Hseen x Hx Hd) as [?|?]; set_solver.
    + intros x [->|Hx]%elem_of_cons Hd; [set_solver|].
      destruct (Hl x Hx Hd) as [?|[?|?]]; set_solver.
    + intros p w Hp' Hnp He Hd.
      destruct (Hdeps p w Hp' Hnp He Hd) as [?|[?|?]]; set_solver.
  - destruct IH1 as (ws1 & Hout1 & Hnd1 & Hw1 & Hcalled1 & Hseen1 & Hl1 & Hdeps1).
    destruct IH2 as (ws2 & Hout2 & Hnd2 & Hw2 & Hcalled2 & Hseen2 & Hl2 & Hdeps2).
    simpl in *.
    assert (name ∈ dom packages) as Hdom by by apply elem_of_dom.
    pose proof (run_mono packages _ _ _ Hrun1) as [Hr1 Hs1].
    pose proof (run_mono packages _ _ _ Hrun2) as [Hr2 Hs2]. simpl in *.
    pose proof (run_new_in_index _ _ _ Hrun1) as Hnew1. simpl in Hnew1.
    exists (ws1 ++ ws2). split; [|split; [|split; [|split; [|split; [|split]]]]].
    + by rewrite Hout2, Hout1, map_app, app_assoc.
    + apply NoDup_app. split; [done|]. split; [|done].
      intros w Hin1 Hin2. destruct (Hw1 _ Hin1) as (_ & _ & ?).
      destruct (Hw2 _ Hin2) as (_ & ? & _). done.
    + intros w [Hin|Hin]%elem_of_app.
      * destruct (Hw1 _ Hin) as (? & ? & ?). split; [done|].
        split; [set_solver|]. by apply Hs2.
      * destruct (Hw2 _ Hin) as (? & ? & ?). split; [done|].
        split; [|done]. intros Hin'. set_solver.
    + intros w [Hin|Hin]%elem_of_app.
      * right. destruct (Hcalled1 w Hin) as [Hd|(p & Hp1 & Hp2 & Hd)].
        -- exists name. split; [apply Hr2; set_solver|]. by split.
        -- exists p. split; [apply Hr2; set_solver|]. by split.
      * destruct (Hcalled2 w Hin) as [?|(p & Hp1 & Hp2 & Hd)]; [left; set_solver|].
        right. exists p. split; [done|]. split; [set_solver | done].
    + intros x Hx Hd. destruct (Hseen2 x Hx Hd) as [Hx1|?]; [|set_solver].
      destruct (Hseen1 x Hx1 Hd) as [?|?]; set_solver.
    + intros x [->|Hx]%elem_of_cons Hd; [done|].
      destruct (Hl2 x Hx Hd) as [Hxr|[Hxs|?]]; [| |set_solver].
      * apply elem_of_union in Hxr as [->%elem_of_singleton|Hxr]; [done|].
        destruct (Hnew1 x Hxr) as [?|?]; [by left | done].
      * destruct (Hseen1 x Hxs Hd) as [?|?]; set_solver.
    + intros p w Hp' Hnp He Hd.
      destruct (decide (p ∈ {[name]} ∪ resolved st1)) as [Hin|Hnin].
      * assert (w ∈ resolved st ∨ w ∈ seen st ∨ w ∈ ws1) as Hcase.
        { apply elem_of_union in Hin as [->%elem_of_singleton|Hin].
          - destruct (Hl1 w He Hd) as [?|[?|?]]; set_solver.
          - destruct (Hdeps1 p w Hin Hnp He Hd) as [?|[?|?]]; set_solver. }
        destruct Hcase as [?|[?|?]]; set_solver.
      * destruct (Hdeps2 p w Hp' Hnin He Hd) as [Hxr|[Hxs|?]]; [| |set_solver].
        -- apply elem_of_union in Hxr as [->%elem_of_singleton|Hxr]; [done|].
           destruct (Hnew1 w Hxr) as [?|?]; [by left | done].
        -- destruct (Hseen1 w Hxs Hd) as [?|?]; set_solver.
Qed.

(** The set a call returns when [resolved] is closed under the edges of the
    index: what was given, and what the root reaches. *)
Lemma resolve_dependencies_reach root (R0 : gset str) stdout :
  (∀ p d, p ∈ R0 → index_edge packages p d → d ∈ R0) →
  ∃ closure stdout',
    resolve_dependencies root packages (Some R0) None stdout
    = Some (closure, stdout')
    ∧ ∀ x, x ∈ closure ↔
           x ∈ R0 ∨ (root ∈ dom packages ∧ rtc (index_edge packages) root x).
Proof.
  intros Hclosed0.
  destruct (resolve_dependencies_run_args root (Some R0) None stdout)
    as (st & Hcall & Hrun). simpl in Hrun.
  exists (resolved st), (out st). split; [done|].
  destruct (run_closed packages _ _ _ Hrun ∅) as [[_ Hdeps] Hroot].
  { split; simpl; [set_solver|]. intros p d Hp Hed Hd. left.
    apply (Hclosed0 p d Hp). by split. }
  assert (∀ p d, p ∈ resolved st → index_edge packages p d → d ∈ resolved st)
    as Hclosed.
  { intros p d Hp [Hd Hin]. destruct (Hdeps p d Hp Hd Hin); set_solver. }
  intros x. split.
  - intros Hx. destruct (run_reachable packages _ _ _ Hrun x Hx)
      as [?|(y & ->%list_elem_of_singleton & ? & ?)]; [by left | by right].
  - intros [Hx|[Hdom Hreach]].
    + apply run_mono in Hrun as [Hsub _]. by apply Hsub.
    + apply (rtc_ind_r (R := index_edge packages) (λ y, y ∈ resolved st) root);
        [| |exact Hreach].
      * destruct (Hroot root) as [?|?]; [set_solver | done | done | set_solver].
      * intros y z _ Hyz IH. by eapply Hclosed.
Qed.
End MoreResolve.

(** X12. Whatever sets are passed in, the call returns a set that holds all of
    the [resolved] given and, beyond it, names of the index only. *)
Theorem resolve_dependencies_adds_index_names
    (packages : gmap str (gmap str str)) (name : str)
    (r0 s0 : option (gset str)) (stdout : list str) :
  ∃ closure stdout',
    resolve_dependencies name packages r0 s0 stdout = Some (closure, stdout')
    ∧ default ∅ r0 ⊆ closure
    ∧ closure ⊆ default ∅ r0 ∪ dom packages.
Proof.
  destruct (resolve_dependencies_run_args packages name r0 s0 stdout)
    as (st & Hcall & Hrun).
  exists (resolved st), (out st). split; [done|]. split.
  - by apply run_mono in Hrun as [Hsub _].
  - intros x Hx. destruct (run_new_in_index packages _ _ _ Hrun x Hx); set_solver.
Qed.

(** X13. Each missing name is reported once: a call with the default
    arguments appends to the output one warning for each name that is absent
    from the index and is the root or a first-alternative dependency of a
    member of the returned set, and nothing else. *)
Theorem resolve_dependencies_warnings (packages : gmap str (gmap str str))
    (root : str) (stdout : list str) :
  ∃ closure ws,
    resolve_dependencies root packages None None stdout
    = Some (closure, stdout ++ map warning ws)
    ∧ NoDup ws
    ∧ ∀ w, w ∈ ws ↔
           (w ∉ dom packages)
           ∧ (w = root ∨ ∃ p, p ∈ closure ∧ w ∈ first_alt_deps packages p).
Proof.
  destruct (resolve_dependencies_run_args packages root None None stdout)
    as (st & Hcall & Hrun). simpl in Hrun.
  destruct (run_warnings packages _ _ _ Hrun)
    as (ws & Hout & Hnd & Hw & Hcalled & _ & Hl & Hdeps). simpl in *.
  exists (resolved st), ws. split; [by rewrite Hcall, Hout|]. split; [done|].
  intros w. split.
  - intros Hin. destruct (Hw _ Hin) as (Hd & _ & _). split; [done|].
    destruct (Hcalled w Hin) as [->%list_elem_of_singleton|(p & ? & _ & ?)];
      [by left|]. right. by exists p.
  - intros [Hd [->|(p & Hp & He)]].
    + destruct (Hl root) as [?|[?|?]]; [set_solver | done | set_solver..| done].
    + destruct (Hdeps p w) as [?|[?|?]]; [done | set_solver | done | done
                                          | set_solver.. | done].
Qed.

(** X14. Resolving into a set that is already closed under the edges of the
    index adds the closure of the root to it: the result is the union of the
    set given and the set the call with the default arguments returns. *)
Theorem resolve_dependencies_accumulates (packages : gmap str (gmap str str))
    (root : str) (R0 : gset str) (stdout : list str) :
  (∀ p d, p ∈ R0 → d ∈ first_alt_deps packages p → d ∈ dom packages →
          d ∈ R0) →
  ∃ closure stdout1 stdout2,
    resolve_dependencies root packages None None stdout
    = Some (closure, stdout1)
    ∧ resolve_dependencies root packages (Some R0) None stdout
      = Some (R0 ∪ closure, stdout2).
Proof.
  intros Hclosed.
  destruct (resolve_dependencies_reach packages root ∅ stdout)
    as (c & o1 & Hc & Hcx); [set_solver|].
  destruct (resolve_dependencies_reach packages root R0 stdout)
    as (c' & o2 & Hc' & Hcx').
  { intros p d Hp [Hd Hin]. by eapply Hclosed. }
  exists c, o1, o2. split; [exact Hc|]. rewrite Hc'. f_equal. f_equal.
  apply set_eq. intros x. rewrite Hcx', elem_of_union, Hcx. set_solver.
Qed.

Lemma resolve_dependencies_accumulates_witness :
  ∃ stdout2,
    resolve_dependencies (lit "A") scenario_A
      (Some (list_to_set [lit "B"; lit "C"])) None []
    = Some (list_to_set [lit "B"; lit "C"] ∪ closure_A, stdout2).
Proof.
  destruct (resolve_dependencies_accumulates scenario_A (lit "A")
              (list_to_set [lit "B"; lit "C"]) [])
    as (c & o1 & o2 & Hc & Hc').
  - intros p d Hp Hd _.
    assert (p = lit "B" ∨ p = lit "C") as [-> | ->] by set_solver.
    + vm_compute in Hd. apply list_elem_of_In in Hd.
      destruct Hd as [<-|[]]. set_solver.
    + vm_compute in Hd. by apply elem_of_nil in Hd.
  - exists o2. rewrite Hc'. f_equal. f_equal. f_equal.
    vm_compute in Hc. by injection Hc as <- _.
Defined.

(** X15. The closure of a member is part of the closure: if [d] is in the
    set returned for [root], the set returned for [d] is included in it. *)
Theorem resolve_dependencies_member_closure
    (packages : gmap str (gmap str str)) (root d : str) (stdout : list str) :
  ∃ closure closure_d stdout1 stdout2,
    resolve_dependencies root packages None None stdout
    = Some (closure, stdout1)
    ∧ resolve_dependencies d packages None None stdout
      = Some (closure_d, stdout2)
    ∧ (d ∈ closure → closure_d ⊆ closure).
Proof.
  destruct (resolve_dependencies_reach packages root ∅ stdout)
    as (c & o1 & Hc & Hcx); [set_solver|].
  destruct (resolve_dependencies_reach packages d ∅ stdout)
    as (cd & o2 & Hcd & Hcdx); [set_solver|].
  exists c, cd, o1, o2. split; [exact Hc|]. split; [exact Hcd|].
  intros Hd x Hx. apply Hcx in Hd as [?|[Hroot Hrd]]; [set_solver|].
  apply Hcdx in Hx as [?|[_ Hdx]]; [set_solver|].
  apply Hcx. right. split; [done|]. by etrans.
Qed.

Lemma resolve_dependencies_member_closure_witness :
  ∃ closure closure_d,
    fst <$> resolve_dependencies (lit "A") scenario_A None None []
    = Some closure
    ∧ fst <$> resolve_dependencies (lit "B") scenario_A None None []
      = Some closure_d
    ∧ lit "B" ∈ closure
    ∧ closure_d ⊆ closure.
Proof.
  destruct (resolve_dependencies_member_closure scenario_A (lit "A") (lit "B") [])
    as (c & cd & o1 & o2 & Hc & Hcd & Hsub).
  exists c, cd. rewrite Hc, Hcd. split; [reflexivity|]. split; [reflexivity|].
  assert (lit "B" ∈ c) as HB.
  { vm_compute in Hc. injection Hc as <- _.
    change (lit "B" ∈ (list_to_set [lit "A"; lit "B"; lit "C"] : gset str)).
    set_solver. }
  split; [exact HB | exact (Hsub HB)].
Defined.

(** ** More on compute_install_order *)

Section MoreOrder.
Context (closure : gset str).
Implicit Types (packages : gmap str (gmap str str)) (fuel : nat).

Lemma for_each_ext_in {St A : Type} (body body' : A → St → option St) l st :
  (∀ x s, x ∈ l → body x s = body' x s) →
  for_each body l st = for_each body' l st.
Proof.
  revert st. induction l as [|x l IH]; intros st Hbody; simpl; [done|].
  rewrite Hbody by set_solver.
  destruct (body' x st) as [s1|]; [|done]. apply IH. intros y s Hy. apply Hbody.
  set_solver.
Qed.

(** [dfs] reads the index at members of the closure only. *)
Lemma visit_frame packages packages' fuel :
  (∀ p, p ∈ closure →
        first_alt_deps packages p = first_alt_deps packages' p) →
  ∀ dep st, visit fuel closure packages dep st
            = visit fuel closure packages' dep st.
Proof.
  intros Hdeps. induction fuel as [|fuel IH]; intros dep st; unfold visit;
    (case_decide as Hin; [|done]); [done|].
  rewrite !dfs_unfold, Hdeps by done.
  case_decide; [done|]. f_equal. by apply for_each_ext.
Qed.

Lemma top_loop_visit packages iter st :
  (∀ x, x ∈ iter → x ∈ closure) →
  for_each (λ pkg st0,
      if decide (pkg ∉ visited st0)
      then dfs (dfs_fuel closure) closure packages pkg st0
      else Some st0) iter st
  = for_each (visit (dfs_fuel closure) closure packages) iter st.
Proof.
  intros Hiter. apply for_each_ext_in. intros x s Hx. unfold visit.
  rewrite (decide_True (P := x ∈ closure)) by by apply Hiter.
  case_decide as Hv; [done|]. unfold dfs_fuel. rewrite dfs_unfold.
  by rewrite decide_True.
Qed.
End MoreOrder.

Lemma index_edge_rtc_in_index (packages : gmap str (gmap str str))
    (root x : str) :
  root ∈ dom packages → rtc (index_edge packages) root x → x ∈ dom packages.
Proof.
  intros Hroot Hreach.
  apply (rtc_ind_r (R := index_edge packages) (λ y, y ∈ dom packages) root);
    [done | | done].
  by intros y z _ [_ Hz] _.
Qed.

Lemma scenario_A_edge_rank (p d : str) :
  closure_edge closure_A scenario_A p d → rank_A d < rank_A p.
Proof.
  intros [Hd Hc]. unfold first_alt_deps, scenario_A in Hd.
  destruct (decide (p = lit "A")) as [->|HA].
  { vm_compute in Hd. apply list_elem_of_In in Hd.
    destruct Hd as [<-|[<-|[]]]; vm_compute; lia. }
  rewrite lookup_insert_ne in Hd by done.
  destruct (decide (p = lit "B")) as [->|HB].
  { vm_compute in Hd. apply list_elem_of_In in Hd.
    destruct Hd as [<-|[]]; vm_compute; lia. }
  rewrite lookup_insert_ne in Hd by done.
  destruct (decide (p = lit "C")) as [->|HC].
  { vm_compute in Hd. by apply elem_of_nil in Hd. }
  rewrite lookup_insert_ne in Hd by done.
  destruct (decide (p = lit "D")) as [->|HD].
  { vm_compute in Hd. by apply elem_of_nil in Hd. }
  rewrite lookup_insert_ne, lookup_empty in Hd by done.
  by apply elem_of_nil in Hd.
Qed.

Lemma scenario_A_acyclic (x : str) :
  ¬ tc (closure_edge closure_A scenario_A) x x.
Proof.
  assert (∀ p q, tc (closure_edge closure_A scenario_A) p q →
                 rank_A q < rank_A p) as Hrank.
  { induction 1 as [p q He|p q r He _ IH].
    - by apply scenario_A_edge_rank.
    - apply scenario_A_edge_rank in He. lia. }
  intros Hx. apply Hrank in Hx. lia.
Qed.

(** X16. Where the first-alternative edges between members of the closure
    form no cycle, the sequence returned is a topological order: every
    dependency of a member that is itself a member stands strictly before
    it. *)
Theorem install_order_topological (iter : list str) (closure : gset str)
    (packages : gmap str (gmap str str)) :
  iteration_of closure iter →
  (∀ x, ¬ tc (closure_edge closure packages) x x) →
  ∃ ord, compute_install_order iter closure packages = Some ord
         ∧ order_valid closure packages ord.
Proof.
  intros Hit Hacyclic.
  destruct (compute_install_order_spec closure packages iter Hit)
    as (ord & Hcall & _ & _ & Hedge).
  exists ord. split; [done|]. intros p d Hp Hd Hdep.
  destruct (Hedge p d Hp) as [?|Hback]; [by split | done |].
  destruct (Hacyclic p). eapply tc_rtc_r; [|exact Hback].
  apply tc_once. by split.
Qed.

Lemma install_order_topological_witness :
  iteration_of closure_A (elements closure_A)
  ∧ ∃ ord, compute_install_order (elements closure_A) closure_A scenario_A
           = Some ord
           ∧ order_valid closure_A scenario_A ord.
Proof.
  split; [apply iteration_of_elements|].
  exact (install_order_topological _ _ _ (iteration_of_elements closure_A)
           scenario_A_acyclic).
Defined.

(** X17. The order depends on the index only through the dependency lists of
    the members of the closure: two indexes that agree on those give the same
    result, whatever records they hold for other names. *)
Theorem install_order_frame (iter : list str) (closure : gset str)
    (packages packages' : gmap str (gmap str str)) :
  (∀ x, x ∈ iter → x ∈ closure) →
  (∀ p, p ∈ closure →
        first_alt_deps packages p = first_alt_deps packages' p) →
  compute_install_order iter closure packages
  = compute_install_order iter closure packages'.
Proof.
  intros Hiter Hdeps. unfold compute_install_order.
  rewrite !top_loop_visit by done.
  by rewrite (for_each_ext _ _ _ _ (visit_frame closure _ _ _ Hdeps)).
Qed.

Lemma install_order_frame_witness :
  compute_install_order [lit "A"; lit "B"; lit "C"] closure_A scenario_A
  = compute_install_order [lit "A"; lit "B"; lit "C"] closure_A
      scenario_A_without_D.
Proof.
  apply install_order_frame.
  - intros x Hx. unfold closure_A. by apply elem_of_list_to_set.
  - intros p Hp. unfold closure_A in Hp. apply elem_of_list_to_set in Hp.
    apply list_elem_of_In in Hp.
    destruct Hp as [<-|[<-|[<-|[]]]]; vm_compute; reflexivity.
Defined.

(** X18. Resolving and then ordering, as [main] does: for the set that
    [resolve_dependencies] returns for a root, and any order of iteration
    over it, [compute_install_order] returns a sequence of names of the index
    that holds the root when the root is in the index; when the root is not in
    the index the set and the sequence are empty. *)
Theorem resolve_then_order (packages : gmap str (gmap str str)) (root : str)
    (stdout stdout' : list str) (closure : gset str) (iter : list str) :
  resolve_dependencies root packages None None stdout
  = Some (closure, stdout') →
  iteration_of closure iter →
  ∃ ord, compute_install_order iter closure packages = Some ord
         ∧ (∀ x, x ∈ ord → x ∈ dom packages)
         ∧ (root ∈ dom packages → root ∈ ord)
         ∧ (root ∉ dom packages → ord = [] ∧ closure = ∅).
Proof.
  intros Hcall Hit.
  destruct (resolve_dependencies_reach packages root ∅ stdout)
    as (c & o & Hc & Hcx); [set_solver|].
  change (resolve_dependencies root packages (Some ∅) None stdout)
    with (resolve_dependencies root packages None None stdout) in Hc.
  rewrite Hcall in Hc. injection Hc as <- <-.
  destruct (compute_install_order_spec closure packages iter Hit)
    as (ord & Hord & _ & Hmem & _).
  exists ord. split; [done|]. split; [|split].
  - intros x Hx. apply Hmem, Hcx in Hx as [?|[Hroot Hreach]]; [set_solver|].
    by eapply index_edge_rtc_in_index.
  - intros Hroot. apply Hmem, Hcx. right. done.
  - intros Hroot.
    assert (closure = ∅) as Hempty.
    { apply set_eq. intros x. rewrite Hcx. set_solver. }
    split; [|done]. destruct ord as [|x ord]; [done|].
    assert (x ∈ closure) as Hx by (apply Hmem; set_solver).
    rewrite Hempty in Hx. set_solver.
Qed.

Lemma resolve_then_order_witness :
  resolve_dependencies (lit "A") scenario_A None None [] = Some (closure_A, [])
  ∧ iteration_of closure_A (elements closure_A)
  ∧ lit "A" ∈ dom scenario_A
  ∧ ∃ ord, compute_install_order (elements closure_A) closure_A scenario_A
           = Some ord
           ∧ lit "A" ∈ ord.
Proof.
  assert (lit "A" ∈ dom scenario_A) as HA
    by (apply elem_of_dom; vm_compute; eexists; reflexivity).
  split; [exact scenario_A_resolve_full|].
  split; [apply iteration_of_elements|]. split; [exact HA|].
  destruct (resolve_then_order scenario_A (lit "A") [] [] closure_A
              (elements closure_A) scenario_A_resolve_full
              (iteration_of_elements closure_A))
    as (ord & Hord & _ & Hroot & _).
  exists ord. split; [exact Hord | exact (Hroot HA)].
Defined.

(** ** generate_install_script *)

Example generate_install_script_sample :
  generate_install_script [lit "C"; lit "B"; lit "A"] archive_index
    (lit "A") (lit "A/install.sh") []
  = ((lit "A/install.sh",
      join_lines
        [lit "#!/bin/bash"; lit "set -e"; lit "";
         lit "echo 'Starting installation of downloaded .deb packages...'";
         lit "";
         lit "echo 'Installing B...'";
         lit "sudo apt install ./A/b_2.0_all.deb || true"; lit "";
         lit "echo 'Installing A...'";
         lit "sudo apt install ./A/a_1.0_amd64.deb || true"; lit "";
         lit "echo 'Fixing dependencies, if any...'";
         lit "sudo apt-get install -f -y";
         lit "echo 'Installation complete.'"]),
     [lit "Installation script generated: A/install.sh"]).
Proof. vm_compute. reflexivity. Qed.

Section Script.
Context (packages : gmap str (gmap str str)) (output_dir : str).
Implicit Types (pkg : str) (order lines : list str).

Lemma script_step_block lines pkg :
  script_step packages output_dir lines pkg
  = lines ++ install_block packages output_dir pkg.
Proof.
  unfold install_block, script_step.
  destruct (packages !! pkg) as [info|]; [|by rewrite app_nil_r].
  destruct (info !! FILENAME); [done | by rewrite app_nil_r].
Qed.

Lemma fold_script_step order lines :
  fold_left (script_step packages output_dir) order lines
  = lines ++ flat_map (install_block packages output_dir) order.
Proof.
  revert lines. induction order as [|pkg order IH]; intros lines; simpl.
  - by rewrite app_nil_r.
  - by rewrite IH, script_step_block, <- app_assoc.
Qed.

(** The script: the header, the blocks of the names in order, the footer. *)
Lemma script_lines_blocks order :
  script_lines order packages output_dir
  = script_header ++ flat_map (install_block packages output_dir) order
    ++ script_footer.
Proof. unfold script_lines. by rewrite fold_script_step, <- app_assoc. Qed.

Lemma installableb_spec pkg :
  installableb packages pkg = true ↔ installable packages pkg.
Proof.
  unfold installableb, installable. destruct (packages !! pkg) as [info|].
  - rewrite bool_decide_eq_true. split; [by eauto|].
    by intros (? & [= <-] & ?).
  - split; [done|]. by intros (? & ? & ?).
Qed.

Lemma install_block_not_installable pkg :
  installableb packages pkg = false → install_block packages output_dir pkg = [].
Proof.
  unfold installableb, install_block, script_step.
  destruct (packages !! pkg) as [info|]; [|done].
  destruct (info !! FILENAME); [|done].
  intros H%bool_decide_eq_false. destruct H. by eexists.
Qed.

Lemma install_block_installable pkg :
  installable packages pkg →
  ∃ path, install_block packages output_dir pkg
          = [echo_line pkg; install_line path; lit ""].
Proof.
  intros (info & Hinfo & [filename Hf]).
  unfold install_block, script_step. rewrite Hinfo, Hf. by eexists.
Qed.
End Script.

Lemma before_split (p q : str) (l : list str) :
  before p q l → ∃ l1 l2, l = l1 ++ p :: l2 ∧ q ∈ l2.
Proof.
  intros (i & j & Hi & Hj & Hlt).
  exists (take i l), (drop (S i) l). split.
  - by rewrite take_drop_middle.
  - apply list_elem_of_lookup. exists (j - S i).
    rewrite lookup_drop. by replace (S i + (j - S i)) with j by lia.
Qed.

(** X19. The script installs in the order given: if [p] stands before [q] in
    [install_order] and both have a record with a [Filename], the line that
    announces [p] stands before the line that announces [q] in the script. *)
Theorem install_script_keeps_order (install_order : list str)
    (packages : gmap str (gmap str str)) (output_dir p q : str) :
  before p q install_order →
  installable packages p → installable packages q →
  before (echo_line p) (echo_line q)
         (script_lines install_order packages output_dir).
Proof.
  intros (l1 & l2 & -> & Hq)%before_split Hp Hq'.
  destruct (install_block_installable packages output_dir p Hp) as [pp Hbp].
  destruct (install_block_installable packages output_dir q Hq') as [pq Hbq].
  rewrite script_lines_blocks, flat_map_app.
  change (flat_map (install_block packages output_dir) (p :: l2))
    with (install_block packages output_dir p
          ++ flat_map (install_block packages output_dir) l2).
  rewrite Hbp, <- !app_assoc.
  rewrite (app_assoc script_header), (app_assoc (script_header ++ _)).
  apply before_app_r; [set_solver|].
  apply elem_of_app. left. apply elem_of_flat_map. exists q.
  split; [done|]. rewrite Hbq. set_solver.
Qed.

Lemma install_script_keeps_order_witness :
  before (lit "B") (lit "A") [lit "C"; lit "B"; lit "A"]
  ∧ installable archive_index (lit "B") ∧ installable archive_index (lit "A")
  ∧ before (echo_line (lit "B")) (echo_line (lit "A"))
           (script_lines [lit "C"; lit "B"; lit "A"] archive_index (lit "A")).
Proof.
  assert (before (lit "B") (lit "A") [lit "C"; lit "B"; lit "A"]) as Hb.
  { exists 1, 2. split; [reflexivity|]. split; [reflexivity | lia]. }
  assert (installable archive_index (lit "B")) as HB.
  { apply installableb_spec. vm_compute. reflexivity. }
  assert (installable archive_index (lit "A")) as HA.
  { apply installableb_spec. vm_compute. reflexivity. }
  split; [exact Hb|]. split; [exact HB|]. split; [exact HA|].
  exact (install_script_keeps_order _ archive_index (lit "A") _ _ Hb HB HA).
Defined.

(** X20. Names without a record or without a [Filename] leave no trace: the
    script is the same as for the sequence without them, and it has eight
    lines and three more for each name that has a [Filename]. *)
Theorem install_script_skips (install_order : list str)
    (packages : gmap str (gmap str str)) (output_dir : str) :
  script_lines install_order packages output_dir
  = script_lines (filter (λ pkg, installableb packages pkg = true) install_order)
      packages output_dir
  ∧ length (script_lines install_order packages output_dir)
    = 8 + 3 * length (filter (λ pkg, installableb packages pkg = true)
                             install_order).
Proof.
  rewrite !script_lines_blocks.
  assert (flat_map (install_block packages output_dir) install_order
          = flat_map (install_block packages output_dir)
              (filter (λ pkg, installableb packages pkg = true) install_order)
          ∧ length (flat_map (install_block packages output_dir) install_order)
            = 3 * length (filter (λ pkg, installableb packages pkg = true)
                                 install_order)) as [Heq Hlen].
  { induction install_order as [|pkg rest [IH1 IH2]]; [done|].
    rewrite filter_cons. simpl.
    destruct (installableb packages pkg) eqn:E.
    - rewrite decide_True by done. simpl. rewrite <- IH1. split; [done|].
      apply installableb_spec in E.
      destruct (install_block_installable packages output_dir pkg E) as [pp ->].
      simpl. rewrite IH2. lia.
    - rewrite decide_False by done.
      rewrite install_block_not_installable by done. done. }
  split; [by rewrite <- Heq|].
  rewrite !length_app, Hlen. simpl. lia.
Qed.

(** ** The closure and the order, end to end *)

Lemma index_edge_ext (P P' : gmap str (gmap str str)) :
  dom P = dom P' →
  (∀ p d, d ∈ first_alt_deps P p ↔ d ∈ first_alt_deps P' p) →
  ∀ x y, rtc (index_edge P) x y → rtc (index_edge P') x y.
Proof.
  intros Hdom Hdeps x y. apply rtc_subrel.
  intros p d [Hd Hin]. split; [by apply Hdeps | by rewrite <- Hdom].
Qed.

(** X22. The closure depends on the index only through its set of names and,
    for each name, the set of its first-alternative dependencies: neither
    the order of the dependencies in a field nor their repetition changes the
    set returned. *)
Theorem resolve_dependencies_edge_sets (P P' : gmap str (gmap str str))
    (root : str) (stdout : list str) :
  dom P = dom P' →
  (∀ p d, d ∈ first_alt_deps P p ↔ d ∈ first_alt_deps P' p) →
  fst <$> resolve_dependencies root P None None stdout
  = fst <$> resolve_dependencies root P' None None stdout.
Proof.
  intros Hdom Hdeps.
  destruct (resolve_dependencies_reach P root ∅ stdout)
    as (c & o & Hc & Hcx); [set_solver|].
  destruct (resolve_dependencies_reach P' root ∅ stdout)
    as (c' & o' & Hc' & Hcx'); [set_solver|].
  change (resolve_dependencies root P (Some ∅) None stdout)
    with (resolve_dependencies root P None None stdout) in Hc.
  change (resolve_dependencies root P' (Some ∅) None stdout)
    with (resolve_dependencies root P' None None stdout) in Hc'.
  rewrite Hc, Hc'. simpl. f_equal. apply set_eq. intros x.
  rewrite Hcx, Hcx', Hdom. split.
  - intros [?|[? Hr]]; [by left|]. right. split; [done|].
    by apply (index_edge_ext P P').
  - intros [?|[? Hr]]; [by left|]. right. split; [done|].
    apply (index_edge_ext P' P); [done | | done].
    intros p d. by rewrite Hdeps.
Qed.

Lemma scenario_A_reordered_deps (p d : str) :
  d ∈ first_alt_deps scenario_A p ↔ d ∈ first_alt_deps scenario_A_reordered p.
Proof.
  unfold first_alt_deps, scenario_A_reordered.
  destruct (decide (p = lit "A")) as [->|HA].
  - rewrite lookup_insert_eq.
    assert (first_alt_deps scenario_A (lit "A") = [lit "B"; lit "C"]) as Hd
      by (vm_compute; reflexivity).
    unfold first_alt_deps in Hd. rewrite Hd.
    assert (parse_dependencies (lit "C, B, B") = [lit "C"; lit "B"; lit "B"])
      as Hd' by (vm_compute; reflexivity).
    rewrite lookup_singleton_eq, Hd'. set_solver.
  - by rewrite lookup_insert_ne.
Qed.

Lemma resolve_dependencies_edge_sets_witness :
  dom scenario_A = dom scenario_A_reordered
  ∧ fst <$> resolve_dependencies (lit "A") scenario_A None None []
    = fst <$> resolve_dependencies (lit "A") scenario_A_reordered None None [].
Proof.
  assert (dom scenario_A = dom scenario_A_reordered) as Hdom.
  { unfold scenario_A_reordered. rewrite dom_insert_L.
    assert (lit "A" ∈ dom scenario_A)
      by (apply elem_of_dom; vm_compute; eexists; reflexivity).
    set_solver. }
  split; [exact Hdom|].
  exact (resolve_dependencies_edge_sets scenario_A scenario_A_reordered
           (lit "A") [] Hdom scenario_A_reordered_deps).
Defined.

Lemma before_trans (x y z : str) (l : list str) :
  NoDup l → before x y l → before y z l → before x z l.
Proof.
  intros Hnd (i & j & Hi & Hj & Hij) (j' & k & Hj' & Hk & Hjk).
  assert (j = j') as <- by by eapply NoDup_lookup.
  exists i, k. repeat split; [done..|lia].
Qed.

Lemma before_last (x y : str) (l : list str) :
  NoDup l → before x y l → last l ≠ Some x.
Proof.
  intros Hnd (i & j & Hi & Hj & Hij) Hlast.
  rewrite last_lookup in Hlast.
  assert (i = pred (length l)) as -> by by eapply NoDup_lookup.
  apply lookup_lt_Some in Hj. lia.
Qed.

(** X23. The requested package comes last: when the root is in the index and
    the first-alternative edges between the members of its closure form no
    cycle, the sequence [compute_install_order] returns for the closure that
    [resolve_dependencies] returned ends with the root, whatever the order of
    iteration over the set. *)
Theorem install_order_root_last (packages : gmap str (gmap str str))
    (root : str) (stdout stdout' : list str) (closure : gset str)
    (iter : list str) :
  resolve_dependencies root packages None None stdout
  = Some (closure, stdout') →
  iteration_of closure iter →
  root ∈ dom packages →
  (∀ x, ¬ tc (closure_edge closure packages) x x) →
  ∃ ord, compute_install_order iter closure packages = Some ord
         ∧ last ord = Some root.
Proof.
  intros Hcall Hit Hroot Hacyclic.
  destruct (resolve_dependencies_reach packages root ∅ stdout)
    as (c & o & Hc & Hcx); [set_solver|].
  change (resolve_dependencies root packages (Some ∅) None stdout)
    with (resolve_dependencies root packages None None stdout) in Hc.
  rewrite Hcall in Hc. injection Hc as <- <-.
  destruct (compute_install_order_spec closure packages iter Hit)
    as (ord & Hord & Hnd & Hmem & Hedge).
  exists ord. split; [done|].
  assert (∀ x, x ∈ closure → x = root ∨ before x root ord) as Hbefore.
  { intros x Hx. apply Hcx in Hx as [?|[_ Hreach]]; [set_solver|].
    apply (rtc_ind_r (R := index_edge packages)
             (λ y, y = root ∨ before y root ord) root); [by left | | done].
    intros y z Hry [Hz Hzd] IH.
    assert (y ∈ closure) as Hy by (apply Hcx; by right).
    assert (z ∈ closure) as Hzc.
    { apply Hcx. right. split; [done|]. eapply rtc_r; [done | by split]. }
    assert (before z y ord) as Hzy.
    { destruct (Hedge y z Hy) as [?|Hback]; [by split | done |].
      destruct (Hacyclic y). eapply tc_rtc_r; [|exact Hback].
      apply tc_once. by split. }
    destruct IH as [->|IH]; [by right|].
    right. by eapply before_trans. }
  assert (root ∈ ord) as Hin by (apply Hmem, Hcx; by right).
  destruct (last ord) as [y|] eqn:Hlast.
  - assert (y ∈ closure) as Hy by (apply Hmem; by eapply last_Some_elem_of).
    destruct (Hbefore y Hy) as [->|Hb]; [done|].
    by destruct (before_last _ _ _ Hnd Hb).
  - apply last_None in Hlast. subst. by apply elem_of_nil in Hin.
Qed.

Lemma install_order_root_last_witness :
  resolve_dependencies (lit "A") scenario_A None None [] = Some (closure_A, [])
  ∧ iteration_of closure_A (elements closure_A)
  ∧ lit "A" ∈ dom scenario_A
  ∧ ∃ ord, compute_install_order (elements closure_A) closure_A scenario_A
           = Some ord
           ∧ last ord = Some (lit "A").
Proof.
  assert (lit "A" ∈ dom scenario_A) as HA
    by (apply elem_of_dom; vm_compute; eexists; reflexivity).
  split; [exact scenario_A_resolve_full|].
  split; [apply iteration_of_elements|]. split; [exact HA|].
  exact (install_order_root_last scenario_A (lit "A") [] [] closure_A
           (elements closure_A) scenario_A_resolve_full
           (iteration_of_elements closure_A) HA scenario_A_acyclic).
Defined.

(** ** resolve_dependencies under the recursion limit *)

Example chain_index_3 :
  chain_index 3
  = <[lit "ppp" := {[DEPENDS := lit "pppp"]}]>
    (<[lit "pp" := {[DEPENDS := lit "ppp"]}]>
    {[lit "p" := {[DEPENDS := lit "pp"]}]}).
Proof. vm_compute. reflexivity. Qed.

Example chain_3_frames :
  resolve_dependencies_limited 3 (lit "p") (chain_index 3) None None []
  = RecursionError
  ∧ resolve_dependencies_limited 5 (lit "p") (chain_index 3) None None []
    = Returned (list_to_set [lit "p"; lit "pp"; lit "ppp"],
                [warning (lit "pppp")]).
Proof. split; vm_compute; reflexivity. Qed.

Section Limited.
Context (packages : gmap str (gmap str str)).
Implicit Types (name root : str) (st : RState) (depth_left : nat).




End Limited.

(** *** A chain as deep as the limit *)







(** *** C4 *)



